(** * Lumina Gallery (src/App.jsx): directory scanner, loader and viewer navigation

    A shallow embedding of the logic of the [App] component:
    - the recursive [scanDirectory] walk and its extension allow-list,
    - the [Promise.all] materialisation of the scanned files into blob URLs,
    - the React state ([images], [selectedIndex], [loading]) and the two refs
      ([zoomStates], [transformRef]) with the handlers that update them.

    File names are modelled as byte strings (the UTF-8 form of the JS string);
    '.' and the ASCII letters are single bytes in that form, and no non-ASCII
    character lower-cases to a letter of the allow-list, so splitting on '.'
    and ASCII lower-casing decide membership exactly as the JS code does. *)

From Stdlib Require Import ZArith QArith Ascii String.
From stdpp Require Import gmap strings list.

Close Scope Q_scope.
Open Scope string_scope.
Open Scope list_scope.

(** ** JavaScript values used by the component *)

(** A thrown value; the component only ever inspects [err.name]. *)
Record JsError := { err_name : string }.

(** Outcome of an awaited platform call: a value, or a thrown error. *)
Inductive result (A : Type) : Type :=
| Ok (a : A)
| Throw (e : JsError).
Arguments Ok {A} a.
Arguments Throw {A} e.

(** The byte content behind a file handle, identified by a blob number. *)
Definition File := nat.

(** A blob URL returned by [URL.createObjectURL]. *)
Definition Url := nat.

(** A [FileSystemHandle].  [kind] is 'file' or 'directory'.  A file handle
    answers [getFile()] with content or a thrown error.  A directory handle
    yields the entries of [values()] in order and may then throw (for
    instance when the permission is revoked during the walk). *)
#[local] Unset Elimination Schemes.
Inductive entry : Type :=
| FileHandle (name : string) (getFile : result File)
| DirectoryHandle (name : string) (values : list entry) (fault : option JsError).
#[local] Set Elimination Schemes.

Definition entry_name (e : entry) : string :=
  match e with
  | FileHandle n _ => n
  | DirectoryHandle n _ _ => n
  end.

(** ** String operations of line 31: [name.split('.').pop().toLowerCase()] *)

(** [s.split(sep)] for a one-character separator. *)
Fixpoint split (sep : ascii) (s : string) : list string :=
  match s with
  | EmptyString => [EmptyString]
  | String c s' =>
      if Ascii.eqb c sep then EmptyString :: split sep s'
      else match split sep s' with
           | [] => [String c EmptyString]
           | seg :: segs => String c seg :: segs
           end
  end.

(** [arr.pop()]: the last element, [None] (undefined) on an empty array. *)
Definition pop (arr : list string) : option string := last arr.

Definition lowerChar (c : ascii) : ascii :=
  let n := nat_of_ascii c in
  if ((65 <=? n)%nat && (n <=? 90)%nat)%bool then ascii_of_nat (n + 32) else c.

Fixpoint toLowerCase (s : string) : string :=
  match s with
  | EmptyString => EmptyString
  | String c s' => String (lowerChar c) (toLowerCase s')
  end.

(** [const allowedExt = new Set(['jpg', 'jpeg', 'png', 'gif', 'webp', 'bmp'])] *)
Definition allowedExt : gset string :=
  list_to_set ["jpg"; "jpeg"; "png"; "gif"; "webp"; "bmp"].

(** [const ext = entry.name.split('.').pop().toLowerCase()]; calling
    [toLowerCase] on undefined would throw a TypeError. *)
Definition ext (name : string) : result string :=
  match pop (split "." name) with
  | Some last_seg => Ok (toLowerCase last_seg)
  | None => Throw {| err_name := "TypeError" |}
  end.

(** ** The scanner (lines 24-42) *)

(** An element of [imageFiles]: [{ handle: entry, name: entry.name }]. *)
Record ImageFile := { if_handle : entry; if_name : string }.

(** [scanDirectory(handle)] with the array [imageFiles] it pushes to passed
    explicitly.  The inner [loop] is the [for await] over [handle.values()]. *)
Fixpoint scanDirectory (handle : entry) (imageFiles : list ImageFile)
  : result (list ImageFile) :=
  match handle with
  | FileHandle _ _ => Throw {| err_name := "TypeError" |}
  | DirectoryHandle _ values fault =>
      (fix loop (es : list entry) (imageFiles : list ImageFile)
         : result (list ImageFile) :=
         match es with
         | [] => match fault with
                 | None => Ok imageFiles
                 | Some e => Throw e
                 end
         | e :: es' =>
             match e with
             | FileHandle name _ =>
                 match ext name with
                 | Ok x =>
                     if bool_decide (x ∈ allowedExt)
                     then loop es' (imageFiles ++ [{| if_handle := e; if_name := name |}])
                     else loop es' imageFiles
                 | Throw err => Throw err
                 end
             | DirectoryHandle _ _ _ =>
                 match scanDirectory e imageFiles with
                 | Ok imageFiles' => loop es' imageFiles'
                 | Throw err => Throw err
                 end
             end
         end) values imageFiles
  end.

(** ** Component state (lines 7-13) and the platform effects it causes *)

(** [{ scale, positionX, positionY }].  The component only copies these
    numbers, it never computes with them. *)
Record TransformState := { scale : Q; positionX : Q; positionY : Q }.

(** An element of [images]: [{ name, url, handle }]. *)
Record Image := { img_name : string; img_url : Url; img_handle : entry }.

Record App := {
  images : list Image;                      (* useState([]) *)
  selectedIndex : option Z;                 (* useState(null) *)
  loading : bool;                           (* useState(false) *)
  zoomStates : gmap Z TransformState;       (* zoomStates.current *)
  transformRef : option TransformState;     (* transformRef.current.instance.transformState *)
  alerts : list string;                     (* calls of alert *)
  consoleErrors : list JsError;             (* calls of console.error *)
  revokedUrls : list Url;                   (* calls of URL.revokeObjectURL *)
  nextUrl : Url                             (* next URL of URL.createObjectURL *)
}.

Definition initialApp : App :=
  {| images := []; selectedIndex := None; loading := false; zoomStates := ∅;
     transformRef := None; alerts := []; consoleErrors := []; revokedUrls := [];
     nextUrl := 0 |}.

Definition with_selectedIndex (v : option Z) (st : App) : App :=
  {| images := images st; selectedIndex := v; loading := loading st;
     zoomStates := zoomStates st; transformRef := transformRef st;
     alerts := alerts st; consoleErrors := consoleErrors st;
     revokedUrls := revokedUrls st; nextUrl := nextUrl st |}.

Definition with_zoomStates (v : gmap Z TransformState) (st : App) : App :=
  {| images := images st; selectedIndex := selectedIndex st; loading := loading st;
     zoomStates := v; transformRef := transformRef st;
     alerts := alerts st; consoleErrors := consoleErrors st;
     revokedUrls := revokedUrls st; nextUrl := nextUrl st |}.

Definition with_transformRef (v : option TransformState) (st : App) : App :=
  {| images := images st; selectedIndex := selectedIndex st; loading := loading st;
     zoomStates := zoomStates st; transformRef := v;
     alerts := alerts st; consoleErrors := consoleErrors st;
     revokedUrls := revokedUrls st; nextUrl := nextUrl st |}.

Definition with_nextUrl (v : Url) (st : App) : App :=
  {| images := images st; selectedIndex := selectedIndex st; loading := loading st;
     zoomStates := zoomStates st; transformRef := transformRef st;
     alerts := alerts st; consoleErrors := consoleErrors st;
     revokedUrls := revokedUrls st; nextUrl := v |}.

(** [setLoading(v)] *)
Definition setLoading (v : bool) (st : App) : App :=
  {| images := images st; selectedIndex := selectedIndex st; loading := v;
     zoomStates := zoomStates st; transformRef := transformRef st;
     alerts := alerts st; consoleErrors := consoleErrors st;
     revokedUrls := revokedUrls st; nextUrl := nextUrl st |}.

(** [setImages(v)] followed by the cleanup of the effect of lines 71-75,
    which runs for the array being replaced:
    [images.forEach(img => URL.revokeObjectURL(img.url))]. *)
Definition setImages (v : list Image) (st : App) : App :=
  {| images := v; selectedIndex := selectedIndex st; loading := loading st;
     zoomStates := zoomStates st; transformRef := transformRef st;
     alerts := alerts st; consoleErrors := consoleErrors st;
     revokedUrls := revokedUrls st ++ map img_url (images st);
     nextUrl := nextUrl st |}.

(** ** Viewer render (lines 106-108, 148, 163-187) *)

Definition defaultTransform : TransformState :=
  {| scale := 1%Q; positionX := 0%Q; positionY := 0%Q |}.

(** [initialState] of lines 106-108. *)
Definition initialState (st : App) : TransformState :=
  match selectedIndex st with
  | Some i =>
      match zoomStates st !! i with
      | Some saved => saved
      | None => defaultTransform
      end
  | None => defaultTransform
  end.

(** [centerOnInit={!zoomStates.current[selectedIndex]}] (line 171); the
    [onLoad] handler of line 182 calls [centerView(0.5)] under the same test. *)
Definition centerOnInit (st : App) : bool :=
  match selectedIndex st with
  | Some i => bool_decide (zoomStates st !! i = None)
  | None => true
  end.

(** [images[selectedIndex]]: undefined outside the array. *)
Definition imageAt (imgs : list Image) (i : Z) : option Image :=
  if (0 <=? i)%Z then imgs !! Z.to_nat i else None.

(** The [src] of the full view (line 177), when the viewer is rendered:
    reading [.url] of undefined throws. *)
Definition viewerSrc (st : App) : result (option Url) :=
  match selectedIndex st with
  | None => Ok None
  | Some i =>
      match imageAt (images st) i with
      | Some img => Ok (Some (img_url img))
      | None => Throw {| err_name := "TypeError" |}
      end
  end.

(** [setSelectedIndex(v)] and the commit that follows.  The viewer is keyed
    by [selectedIndex] (line 164): a new index mounts a fresh
    [TransformWrapper] started from [initialState], null unmounts it, and an
    unchanged value re-renders nothing. *)
Definition setSelectedIndex (v : option Z) (st : App) : App :=
  if decide (v = selectedIndex st) then st
  else
    let st' := with_selectedIndex v st in
    match v with
    | Some _ => with_transformRef (Some (initialState st')) st'
    | None => with_transformRef None st'
    end.

(** ** Navigation (lines 78-104) *)

Definition saveCurrentState (st : App) : App :=
  match transformRef st, selectedIndex st with
  | Some t, Some i =>
      with_zoomStates
        (<[i := {| scale := scale t; positionX := positionX t; positionY := positionY t |}]>
           (zoomStates st)) st
  | _, _ => st
  end.

(** Arithmetic on a state value that may be null: null converts to 0. *)
Definition toNumber (v : option Z) : Z :=
  match v with
  | Some n => n
  | None => 0%Z
  end.

(** [(prev) => (prev + 1 < images.length ? prev + 1 : prev)] *)
Definition nextIndex (len : Z) (prev : option Z) : option Z :=
  if (toNumber prev + 1 <? len)%Z then Some (toNumber prev + 1)%Z else prev.

(** [(prev) => (prev - 1 >= 0 ? prev - 1 : prev)] *)
Definition prevIndex (prev : option Z) : option Z :=
  if (toNumber prev - 1 >=? 0)%Z then Some (toNumber prev - 1)%Z else prev.

Definition handleNext (st : App) : App :=
  let st1 := saveCurrentState st in
  setSelectedIndex (nextIndex (Z.of_nat (length (images st1))) (selectedIndex st1)) st1.

Definition handlePrev (st : App) : App :=
  let st1 := saveCurrentState st in
  setSelectedIndex (prevIndex (selectedIndex st1)) st1.

Definition handleKeyDown (key : string) (st : App) : App :=
  match selectedIndex st with
  | None => st
  | Some _ =>
      let st1 := if decide (key = "ArrowRight") then handleNext st else st in
      let st2 := if decide (key = "ArrowLeft") then handlePrev st1 else st1 in
      if decide (key = "Escape") then setSelectedIndex None st2 else st2
  end.

(** ** Materialisation (lines 47-56) *)

(** State of a promise. *)
Inductive settled (A : Type) : Type :=
| Fulfilled (a : A)
| Rejected (e : JsError)
| Pending.
Arguments Fulfilled {A} a.
Arguments Rejected {A} e.
Arguments Pending {A}.

(** The async callback of line 48 once [item.handle.getFile()] has settled:
    [{ name: item.name, url: URL.createObjectURL(file), handle: item.handle }],
    or the rejection of [getFile]. *)
Definition materialize (item : ImageFile) (url : Url) : result Image :=
  match if_handle item with
  | FileHandle _ (Ok _) =>
      Ok {| img_name := if_name item; img_url := url; img_handle := if_handle item |}
  | FileHandle _ (Throw e) => Throw e
  | DirectoryHandle _ _ _ => Throw {| err_name := "TypeError" |}
  end.

(** [Promise.all]: the array of values indexed by input position, the count
    of promises still awaited, and the state of the combined promise. *)
Record PromiseAll := {
  pa_values : list (option Image);
  pa_remaining : nat;
  pa_state : settled (list Image)
}.

Definition promiseAllStart (n : nat) : PromiseAll :=
  {| pa_values := replicate n None;
     pa_remaining := n;
     pa_state := if (n =? 0)%nat then Fulfilled [] else Pending |}.

(** The [k]-th callback settles.  A fulfilment stores the value at position
    [k] and resolves the combined promise when it was the last one awaited; a
    rejection rejects the combined promise.  A promise that is already
    resolved or rejected keeps its state. *)
Definition settleOne (items : list ImageFile) (k : nat) (ps : PromiseAll * Url)
  : PromiseAll * Url :=
  match items !! k with
  | None => ps
  | Some item =>
      match materialize item (snd ps) with
      | Ok img =>
          let values := <[k := Some img]> (pa_values (fst ps)) in
          let remaining := pred (pa_remaining (fst ps)) in
          ({| pa_values := values;
              pa_remaining := remaining;
              pa_state := match pa_state (fst ps) with
                          | Pending =>
                              if (remaining =? 0)%nat then Fulfilled (omap id values)
                              else Pending
                          | s => s
                          end |}, S (snd ps))
      | Throw e =>
          ({| pa_values := pa_values (fst ps);
              pa_remaining := pa_remaining (fst ps);
              pa_state := match pa_state (fst ps) with
                          | Pending => Rejected e
                          | s => s
                          end |}, snd ps)
      end
  end.

(** [Promise.all(imageFiles.map(async (item) => ...))] where [sched] lists
    the positions of the callbacks in the order in which they settle. *)
Definition settleAll (items : list ImageFile) (sched : list nat) (ps : PromiseAll * Url)
  : PromiseAll * Url :=
  foldl (fun ps k => settleOne items k ps) ps sched.

Definition promiseAll (items : list ImageFile) (sched : list nat) (url : Url)
  : PromiseAll * Url :=
  settleAll items sched (promiseAllStart (length items), url).

(** ** The load operation (lines 16-68) *)

Definition alertText : string :=
  "Your browser might not support local file access. Try Chrome, Edge, or Opera.".

(** The [catch] block of lines 60-64. *)
Definition catchBlock (err : JsError) (st : App) : App :=
  if decide (err_name err ≠ "AbortError") then
    {| images := images st; selectedIndex := selectedIndex st; loading := loading st;
       zoomStates := zoomStates st; transformRef := transformRef st;
       alerts := alerts st ++ [alertText];
       consoleErrors := consoleErrors st ++ [err];
       revokedUrls := revokedUrls st; nextUrl := nextUrl st |}
  else st.

(** The [finally] block of lines 65-67. *)
Definition finallyBlock (st : App) : App := setLoading false st.

(** Lines 20-22, run once the picker has returned a handle. *)
Definition beginLoad (st : App) : App :=
  with_zoomStates ∅ (setImages [] (setLoading true st)).

(** [handleOpenFolder].  [picker] is the outcome of
    [window.showDirectoryPicker()] (a missing function throws a TypeError, a
    dismissed prompt rejects with an AbortError) and [sched] the order in
    which the [getFile] promises settle.

    The result is the state written by the handler, which is the state the
    component shows when the load is started from the grid.  When an image
    is selected as the load starts, the render that follows line 21 reads
    [images[selectedIndex]] of the emptied list and throws (see [viewerSrc]
    and [render_after_clear] below); the component is then unmounted, and
    what the handler writes after that point is never shown. *)
Definition handleOpenFolder (picker : result entry) (sched : list nat) (st : App) : App :=
  match picker with
  | Throw err => finallyBlock (catchBlock err st)
  | Ok dirHandle =>
      let st1 := beginLoad st in
      match scanDirectory dirHandle [] with
      | Throw err => finallyBlock (catchBlock err st1)
      | Ok imageFiles =>
          let (p, url) := promiseAll imageFiles sched (nextUrl st1) in
          let st2 := with_nextUrl url st1 in
          match pa_state p with
          | Fulfilled loadedImages => finallyBlock (setImages loadedImages st2)
          | Rejected err => finallyBlock (catchBlock err st2)
          | Pending => st2
          end
      end
  end.

(** ** User events *)

Inductive Event : Type :=
| ClickCard (index : nat)
| ClickPrev
| ClickNext
| ClickClose
| KeyDown (key : string)
| Gesture (t : TransformState)
| ClickOpenFolder (picker : result entry) (sched : list nat).

(** One event handled by the rendered component.  A card exists for each
    position of [images] (lines 137-144); the viewer buttons exist while an
    image is selected, prev and next being disabled at the ends (lines
    150-160); pan and zoom act on a mounted viewer; the open button is
    disabled while loading (line 120). *)
Definition step (ev : Event) (st : App) : App :=
  match ev with
  | ClickCard index =>
      if decide (index < length (images st))%nat
      then setSelectedIndex (Some (Z.of_nat index)) st
      else st
  | ClickPrev =>
      match selectedIndex st with
      | Some i => if decide (i = 0%Z) then st else handlePrev st
      | None => st
      end
  | ClickNext =>
      match selectedIndex st with
      | Some i => if decide (i = (Z.of_nat (length (images st)) - 1)%Z) then st else handleNext st
      | None => st
      end
  | ClickClose =>
      match selectedIndex st with
      | Some _ => setSelectedIndex None st
      | None => st
      end
  | KeyDown key => handleKeyDown key st
  | Gesture t =>
      match transformRef st with
      | Some _ => with_transformRef (Some t) st
      | None => st
      end
  | ClickOpenFolder picker sched =>
      if loading st then st else handleOpenFolder picker sched st
  end.

Definition run (evs : list Event) (st : App) : App :=
  foldl (fun s ev => step ev s) st evs.

(** The invariant of the data model on the selection. *)
Definition selection_in_range (st : App) : Prop :=
  forall i, selectedIndex st = Some i -> (0 <= i < Z.of_nat (length (images st)))%Z.

(** Events of the viewer and the grid, as opposed to a folder load. *)
Definition is_ui_event (ev : Event) : Prop :=
  match ev with
  | ClickOpenFolder _ _ => False
  | _ => True
  end.

(** ** Vocabulary of the scanner properties *)

Fixpoint hasDot (s : string) : bool :=
  match s with
  | EmptyString => false
  | String c s' => if Ascii.eqb c "." then true else hasDot s'
  end.

(** [extensionOf name suf]: [suf] is the substring of [name] after its final
    '.', and [name] itself when [name] has no '.'. *)
Definition extensionOf (name suf : string) : Prop :=
  hasDot suf = false /\ (name = suf \/ exists pre, name = pre +:+ "." +:+ suf).

(** The upper-case form of an ASCII lower-case letter, any other character
    as it is. *)
Definition upperChar (c : ascii) : ascii :=
  let n := nat_of_ascii c in
  if ((97 <=? n)%nat && (n <=? 122)%nat)%bool then ascii_of_nat (n - 32) else c.

(** Two characters that are equal or are the two cases of one ASCII letter. *)
Definition sameLetter (c1 c2 : ascii) : Prop :=
  c1 = c2 \/ c1 = upperChar c2 \/ c2 = upperChar c1.

(** Two strings that are equal up to the case of their ASCII letters. *)
Fixpoint equalIgnoringCase (s1 s2 : string) : Prop :=
  match s1, s2 with
  | EmptyString, EmptyString => True
  | String c1 r1, String c2 r2 => sameLetter c1 c2 /\ equalIgnoringCase r1 r2
  | _, _ => False
  end.

(** The file handles below an entry at any depth, in the order of a
    depth-first walk. *)
Fixpoint filesOf (e : entry) : list entry :=
  match e with
  | FileHandle _ _ => [e]
  | DirectoryHandle _ values _ =>
      (fix go (es : list entry) : list entry :=
         match es with
         | [] => []
         | x :: es' => filesOf x ++ go es'
         end) values
  end.

(** [Below f d]: the file handle [f] is listed by directory [d] or by a
    directory nested in [d] at any depth. *)
Inductive Below (f : entry) : entry -> Prop :=
| below_here name values fault getFile nm :
    f = FileHandle nm getFile -> f ∈ values ->
    Below f (DirectoryHandle name values fault)
| below_nested name values fault d :
    d ∈ values -> Below f d ->
    Below f (DirectoryHandle name values fault).

(** No directory of the tree throws while it is listed. *)
Fixpoint faultFree (e : entry) : bool :=
  match e with
  | FileHandle _ _ => true
  | DirectoryHandle _ values fault =>
      match fault with
      | Some _ => false
      | None =>
          (fix go (es : list entry) : bool :=
             match es with
             | [] => true
             | x :: es' => faultFree x && go es'
             end) values
      end
  end.

Definition isDirectory (e : entry) : bool :=
  match e with
  | DirectoryHandle _ _ _ => true
  | FileHandle _ _ => false
  end.

(** The test of lines 31-32 on a name. *)
Definition isImageName (name : string) : bool :=
  match ext name with
  | Ok x => bool_decide (x ∈ allowedExt)
  | Throw _ => false
  end.

Definition imageFileOf (e : entry) : ImageFile :=
  {| if_handle := e; if_name := entry_name e |}.

(** What the walk is expected to collect below an entry. *)
Definition imagesBelow (e : entry) : list ImageFile :=
  imageFileOf <$> List.filter (fun f => isImageName (entry_name f)) (filesOf e).

(** The [for await] loop of [scanDirectory] as a function of its own. *)
Fixpoint scanLoop (fault : option JsError) (es : list entry) (imageFiles : list ImageFile)
  : result (list ImageFile) :=
  match es with
  | [] => match fault with
          | None => Ok imageFiles
          | Some e => Throw e
          end
  | e :: es' =>
      match e with
      | FileHandle name _ =>
          match ext name with
          | Ok x =>
              if bool_decide (x ∈ allowedExt)
              then scanLoop fault es' (imageFiles ++ [{| if_handle := e; if_name := name |}])
              else scanLoop fault es' imageFiles
          | Throw err => Throw err
          end
      | DirectoryHandle _ _ _ =>
          match scanDirectory e imageFiles with
          | Ok imageFiles' => scanLoop fault es' imageFiles'
          | Throw err => Throw err
          end
      end
  end.

(** ** Vocabulary of the loader properties *)

(** [getFile()] of the item's handle answers with content. *)
Definition readable (item : ImageFile) : bool :=
  match if_handle item with
  | FileHandle _ (Ok _) => true
  | _ => false
  end.

(** The error that reaches the [catch] block of [handleOpenFolder], if any. *)
Definition loadError (picker : result entry) (sched : list nat) (url : Url)
  : option JsError :=
  match picker with
  | Throw err => Some err
  | Ok dirHandle =>
      match scanDirectory dirHandle [] with
      | Throw err => Some err
      | Ok imageFiles =>
          match pa_state (fst (promiseAll imageFiles sched url)) with
          | Rejected err => Some err
          | _ => None
          end
      end
  end.

(** What [Promise.all] holds once the callbacks at positions [done] have
    been fulfilled and no other has settled. *)
Record AllInv (items : list ImageFile) (done : list nat) (p : PromiseAll) : Prop := {
  inv_nodup : NoDup done;
  inv_range : forall k, k ∈ done -> k < length items;
  inv_length : length (pa_values p) = length items;
  inv_count : pa_remaining p + length done = length items;
  inv_filled : forall k, k ∈ done ->
      exists item img,
        items !! k = Some item /\ pa_values p !! k = Some (Some img) /\
        img_name img = if_name item /\ img_handle img = if_handle item;
  inv_holes : forall k, k ∉ done -> k < length items -> pa_values p !! k = Some None;
  inv_state : pa_state p = (if (pa_remaining p =? 0)%nat
                            then Fulfilled (omap id (pa_values p)) else Pending)
}.

(** ** Vocabulary of the navigation properties *)

Definition is_next_or_prev (ev : Event) : Prop :=
  ev = ClickNext \/ ev = ClickPrev \/ ev = KeyDown "ArrowRight" \/ ev = KeyDown "ArrowLeft".

Definition is_close (ev : Event) : Prop :=
  ev = ClickClose \/ ev = KeyDown "Escape".

(** The viewer is away from index [i] before and after each of the events
    [evs], none of which is a folder load. *)
Fixpoint staysAway (i : Z) (evs : list Event) (st : App) : Prop :=
  selectedIndex st <> Some i /\
  match evs with
  | [] => True
  | ev :: evs' => is_ui_event ev /\ staysAway i evs' (step ev st)
  end.

(** ** Sample data *)

(** A tree with images at three depths, a text file and upper-case names. *)
Definition sampleTree : entry :=
  DirectoryHandle "root"
    [FileHandle "a.png" (Ok 1);
     DirectoryHandle "sub"
       [FileHandle "b.jpg" (Ok 2);
        FileHandle "c.txt" (Ok 3);
        DirectoryHandle "deep" [FileHandle "d.tar.WebP" (Ok 4); FileHandle "e.jpg.bak" (Ok 5)] None]
       None;
     FileHandle "F.JPEG" (Ok 6)]
    None.

Definition sampleImage (k : nat) (nm : string) : Image :=
  {| img_name := nm; img_url := k; img_handle := FileHandle nm (Ok k) |}.

Definition gallery3 : list Image :=
  [sampleImage 0 "a.png"; sampleImage 1 "b.jpg"; sampleImage 2 "c.gif"].

Definition zoomed : TransformState :=
  {| scale := 3%Q; positionX := 10%Q; positionY := (-20)%Q |}.

(** Three assets loaded, the viewer open at [i] showing transform [t], and
    nothing remembered yet. *)
Definition viewing (i : Z) (t : TransformState) : App :=
  {| images := gallery3; selectedIndex := Some i; loading := false; zoomStates := ∅;
     transformRef := Some t; alerts := []; consoleErrors := []; revokedUrls := [];
     nextUrl := 3 |}.

Definition sampleFound : list ImageFile :=
  [imageFileOf (FileHandle "a.png" (Ok 1));
   imageFileOf (FileHandle "b.jpg" (Ok 2));
   imageFileOf (FileHandle "d.tar.WebP" (Ok 4));
   imageFileOf (FileHandle "F.JPEG" (Ok 6))].

(** The grid with three assets and no image selected. *)
Definition browsing : App :=
  with_transformRef None (with_selectedIndex None (viewing 0 zoomed)).


(** A directory with one image that cannot be read. *)
Definition unreadableDir : entry :=
  DirectoryHandle "pics"
    [FileHandle "a.png" (Ok 1);
     FileHandle "b.png" (Throw {| err_name := "NotReadableError" |})]
    None.

Definition emptyDir : entry := DirectoryHandle "empty" [] None.

(** ** Vocabulary of the further properties *)

(** The errors thrown by the directory listings of a tree, in the order in
    which a depth-first walk would meet them. *)
Fixpoint faultsOf (e : entry) : list JsError :=
  match e with
  | FileHandle _ _ => []
  | DirectoryHandle _ values fault =>
      (fix go (es : list entry) : list JsError :=
         match es with
         | [] => []
         | x :: es' => faultsOf x ++ go es'
         end) values
      ++ match fault with
         | Some err => [err]
         | None => []
         end
  end.

(** The blob URLs of the values stored so far by [Promise.all]. *)
Definition urlsOf (values : list (option Image)) : list Url :=
  img_url <$> omap id values.

(** Bookkeeping of blob URLs: the URLs revoked so far followed by the URLs
    held by [images] are pairwise distinct, and all were created earlier. *)
Definition urls_wf (st : App) : Prop :=
  NoDup (revokedUrls st ++ (img_url <$> images st)) /\
  forall u, u ∈ revokedUrls st ++ (img_url <$> images st) -> u < nextUrl st.

(** What holds of the URLs inside [Promise.all] while callbacks settle: the
    URLs stored are distinct and were created since [url0], and so are those
    of the array it resolved with, if it has resolved. *)
Definition urlInv (url0 : Url) (ps : PromiseAll * Url) : Prop :=
  url0 <= snd ps /\
  NoDup (urlsOf (pa_values (fst ps))) /\
  (forall u, u ∈ urlsOf (pa_values (fst ps)) -> url0 <= u < snd ps) /\
  forall loaded, pa_state (fst ps) = Fulfilled loaded ->
    NoDup (img_url <$> loaded) /\
    forall u, u ∈ img_url <$> loaded -> url0 <= u < snd ps.

(** Whether the callback at position [k] creates a URL when it settles. *)
Definition creates (items : list ImageFile) (k : nat) : bool :=
  match items !! k with
  | Some item => readable item
  | None => false
  end.

(** The number of [URL.createObjectURL] calls made by the callbacks of
    [sched]. *)
Definition createdCount (items : list ImageFile) (sched : list nat) : nat :=
  length (List.filter (creates items) sched).

(** [disabled={selectedIndex === 0}] of the prev button (line 150). *)
Definition prevDisabled (st : App) : bool :=
  bool_decide (selectedIndex st = Some 0%Z).

(** [disabled={selectedIndex === images.length - 1}] of the next button
    (line 154). *)
Definition nextDisabled (st : App) : bool :=
  bool_decide (selectedIndex st = Some (Z.of_nat (length (images st)) - 1)%Z).

(** Every folder load among the events [evs] is started from the grid, with
    no image selected. *)
Fixpoint loadsFromGrid (evs : list Event) (st : App) : Prop :=
  match evs with
  | [] => True
  | ev :: evs' =>
      match ev with
      | ClickOpenFolder _ _ => selectedIndex st = None
      | _ => True
      end /\ loadsFromGrid evs' (step ev st)
  end.

(** The viewer and the zoom memory agree with the asset list. *)
Definition view_ok (st : App) : Prop :=
  selection_in_range st /\
  (forall k, is_Some (zoomStates st !! k) -> (0 <= k < Z.of_nat (length (images st)))%Z) /\
  (is_Some (transformRef st) <-> is_Some (selectedIndex st)).

(** A directory whose listing is aborted after its first entry. *)
Definition abortedDir : entry :=
  DirectoryHandle "pics" [FileHandle "a.png" (Ok 1)] (Some {| err_name := "AbortError" |}).

(** A tree in which two listings throw. *)
Definition twoFaults : entry :=
  DirectoryHandle "root"
    [FileHandle "a.png" (Ok 1);
     DirectoryHandle "first" [FileHandle "b.png" (Ok 2)] (Some {| err_name := "NotFoundError" |});
     DirectoryHandle "second" [] (Some {| err_name := "NotAllowedError" |})]
    None.

(** [st'] has the asset list, busy flag, notices and blob URLs of [st]. *)
Definition sameGallery (st st' : App) : Prop :=
  images st' = images st /\ loading st' = loading st /\
  alerts st' = alerts st /\ consoleErrors st' = consoleErrors st /\
  revokedUrls st' = revokedUrls st /\ nextUrl st' = nextUrl st.

(** A session: load four images, open the last, go back and forth with a
    zoom in between, close, then load an empty folder. *)
Definition sampleSession : list Event :=
  [ClickOpenFolder (Ok sampleTree) [0; 1; 2; 3]; ClickCard 3; KeyDown "ArrowLeft";
   Gesture zoomed; KeyDown "ArrowRight"; ClickClose; ClickOpenFolder (Ok emptyDir) []].

(** One asset, the viewer open on it showing transform [t]. *)
Definition viewingOnly (t : TransformState) : App :=
  {| images := [sampleImage 0 "a.png"]; selectedIndex := Some 0%Z; loading := false;
     zoomStates := ∅; transformRef := Some t; alerts := []; consoleErrors := [];
     revokedUrls := []; nextUrl := 1 |}.

(** * Properties *)

(** ** Strings *)

Lemma split_nonempty sep s : split sep s <> [].
Proof.
  destruct s as [|c s]; simpl; [discriminate|].
  destruct (Ascii.eqb c sep); [discriminate|].
  destruct (split sep s); discriminate.
Qed.

Lemma split_no_dot s : hasDot s = false -> split "." s = [s].
Proof.
  induction s as [|c s IH]; simpl; [reflexivity|].
  destruct (Ascii.eqb c "."); [discriminate|].
  intros H. rewrite (IH H). reflexivity.
Qed.

Lemma split_app_dot pre suf :
  split "." (pre +:+ "." +:+ suf) = split "." pre ++ split "." suf.
Proof.
  induction pre as [|c pre IH]; simpl; [reflexivity|].
  destruct (Ascii.eqb c ".").
  - simpl in IH. rewrite IH. reflexivity.
  - simpl in IH. rewrite IH.
    pose proof (split_nonempty "." pre) as Hne.
    destruct (split "." pre); [congruence|reflexivity].
Qed.

Lemma last_app_nonempty {A} (l1 l2 : list A) : l2 <> [] -> last (l1 ++ l2) = last l2.
Proof.
  destruct l2 as [|x l2]; [congruence|]. intros _. apply last_app_cons.
Qed.

Lemma pop_split_extension name suf :
  extensionOf name suf -> pop (split "." name) = Some suf.
Proof.
  intros [Hnd [->|[pre ->]]]; unfold pop.
  - rewrite (split_no_dot _ Hnd). reflexivity.
  - rewrite split_app_dot, last_app_nonempty by apply split_nonempty.
    rewrite (split_no_dot _ Hnd). reflexivity.
Qed.

Lemma extension_exists name : exists suf, extensionOf name suf.
Proof.
  induction name as [|c s [suf [Hnd Hs]]].
  - exists "". split; [reflexivity|left; reflexivity].
  - destruct Hs as [->|[pre ->]].
    + destruct (Ascii.eqb c ".") eqn:Hc.
      * apply Ascii.eqb_eq in Hc. subst c. exists suf. split; [exact Hnd|].
        right. exists "". reflexivity.
      * exists (String c suf). split; [simpl; rewrite Hc; exact Hnd|left; reflexivity].
    + exists suf. split; [exact Hnd|]. right. exists (String c pre). reflexivity.
Qed.

Lemma ext_spec name x :
  ext name = Ok x <-> exists suf, extensionOf name suf /\ x = toLowerCase suf.
Proof.
  unfold ext. split.
  - destruct (extension_exists name) as [suf Hs].
    rewrite (pop_split_extension _ _ Hs). intros [= <-]. eauto.
  - intros [suf [Hs ->]]. rewrite (pop_split_extension _ _ Hs). reflexivity.
Qed.

Lemma ext_total name : exists x, ext name = Ok x.
Proof.
  destruct (extension_exists name) as [suf Hs].
  exists (toLowerCase suf). apply ext_spec. eauto.
Qed.

Lemma isImageName_spec name :
  isImageName name = true <->
  exists suf, extensionOf name suf /\ toLowerCase suf ∈ allowedExt.
Proof.
  unfold isImageName. split.
  - destruct (ext name) as [x|] eqn:He; [|discriminate].
    intros Hx. apply bool_decide_eq_true in Hx.
    apply ext_spec in He as [suf [Hs ->]]. eauto.
  - intros [suf [Hs Hin]].
    assert (ext name = Ok (toLowerCase suf)) as -> by (apply ext_spec; eauto).
    apply bool_decide_eq_true. exact Hin.
Qed.

Lemma lowerChar_upperChar c : lowerChar (upperChar c) = lowerChar c.
Proof. destruct c as [[] [] [] [] [] [] [] []]; reflexivity. Qed.

Lemma lower_or_upper c : c = lowerChar c \/ c = upperChar (lowerChar c).
Proof.
  destruct c as [[] [] [] [] [] [] [] []];
    first [left; reflexivity|right; reflexivity].
Qed.

Lemma sameLetter_lowerChar c1 c2 : sameLetter c1 c2 -> lowerChar c1 = lowerChar c2.
Proof.
  intros [-> | [-> | ->]]; [reflexivity|apply lowerChar_upperChar|].
  symmetry. apply lowerChar_upperChar.
Qed.

Lemma equalIgnoringCase_toLowerCase s1 :
  forall s2, equalIgnoringCase s1 s2 -> toLowerCase s1 = toLowerCase s2.
Proof.
  induction s1 as [|c1 r1 IH]; intros [|c2 r2]; simpl; try contradiction; [reflexivity|].
  intros [Hc Hr]. rewrite (sameLetter_lowerChar _ _ Hc), (IH _ Hr). reflexivity.
Qed.

Lemma equalIgnoringCase_lowered s : equalIgnoringCase s (toLowerCase s).
Proof.
  induction s as [|c r IH]; simpl; [exact I|]. split; [|exact IH].
  destruct (lower_or_upper c) as [Hc|Hc]; [left; exact Hc|right; left; exact Hc].
Qed.

(** The test [allowedExt.has(ext)] in words: the segment equals one of the
    six extensions up to the case of its letters. *)
Lemma allowed_iff_listed suf :
  toLowerCase suf ∈ allowedExt <->
  exists e, e ∈ ["jpg"; "jpeg"; "png"; "gif"; "webp"; "bmp"] /\ equalIgnoringCase suf e.
Proof.
  unfold allowedExt. rewrite elem_of_list_to_set. split.
  - intros Hin. exists (toLowerCase suf). split; [exact Hin|].
    apply equalIgnoringCase_lowered.
  - intros [e [He Heq]]. rewrite (equalIgnoringCase_toLowerCase _ _ Heq).
    repeat (apply elem_of_cons in He as [->|He];
            [apply list_elem_of_In; simpl; tauto|]).
    inversion He.
Qed.

(** ** The scanner *)

Lemma entry_ind (P : entry -> Prop) :
  (forall name getFile, P (FileHandle name getFile)) ->
  (forall name values fault, Forall P values -> P (DirectoryHandle name values fault)) ->
  forall e, P e.
Proof.
  intros Hfile Hdir. fix IH 1. intros [name getFile|name values fault].
  - apply Hfile.
  - apply Hdir. revert values. fix IHvalues 1. intros [|x values].
    + constructor.
    + constructor; [apply IH|apply IHvalues].
Qed.

Lemma scanDirectory_unfold name values fault imageFiles :
  scanDirectory (DirectoryHandle name values fault) imageFiles
  = scanLoop fault values imageFiles.
Proof.
  simpl. revert imageFiles.
  induction values as [|e es IH]; intros imageFiles; [reflexivity|].
  simpl. destruct e as [nm gf|nm vs flt].
  - destruct (ext nm); [|reflexivity]. destruct (bool_decide _); apply IH.
  - match goal with |- match ?s with _ => _ end = _ => destruct s end;
      [apply IH|reflexivity].
Qed.

Lemma filesOf_unfold name values fault :
  filesOf (DirectoryHandle name values fault) = mjoin (filesOf <$> values).
Proof.
  simpl. induction values as [|e es IH]; [reflexivity|].
  rewrite fmap_cons. simpl. rewrite IH. reflexivity.
Qed.

Lemma faultFree_unfold name values fault :
  faultFree (DirectoryHandle name values fault) = true <->
  fault = None /\ Forall (fun e => faultFree e = true) values.
Proof.
  simpl. destruct fault as [e|].
  - split; [discriminate|intros [[=] _]].
  - induction values as [|x xs IH].
    + split; [intros _; split; [reflexivity|constructor]|reflexivity].
    + rewrite andb_true_iff, IH. split.
      * intros [Hx [_ Hxs]]. split; [reflexivity|constructor; assumption].
      * intros [_ Hall]. inversion Hall; subst. auto.
Qed.

Lemma scanLoop_ok values :
  Forall (fun e => isDirectory e = true -> faultFree e = true ->
            forall acc, scanDirectory e acc = Ok (acc ++ imagesBelow e)) values ->
  Forall (fun e => faultFree e = true) values ->
  forall acc,
    scanLoop None values acc
    = Ok (acc ++ (imageFileOf <$>
                    List.filter (fun f => isImageName (entry_name f))
                      (mjoin (filesOf <$> values)))).
Proof.
  induction 1 as [|e es He _ IH]; intros Hff acc.
  - simpl. rewrite app_nil_r. reflexivity.
  - inversion Hff as [|? ? Hffe Hffes]; subst.
    rewrite fmap_cons.
    change (mjoin (filesOf e :: (filesOf <$> es)))
      with (filesOf e ++ mjoin (filesOf <$> es)).
    rewrite List.filter_app, fmap_app.
    destruct e as [nm gf|nm vs flt]; cbn [scanLoop].
    + simpl filesOf. simpl List.filter. unfold isImageName at 1. simpl entry_name.
      destruct (ext_total nm) as [x ->].
      destruct (bool_decide (x ∈ allowedExt)).
      * rewrite (IH Hffes). rewrite <- app_assoc. reflexivity.
      * rewrite (IH Hffes). reflexivity.
    + rewrite (He eq_refl Hffe acc). rewrite (IH Hffes).
      unfold imagesBelow. rewrite <- app_assoc. reflexivity.
Qed.

Lemma scanDirectory_ok e :
  isDirectory e = true -> faultFree e = true ->
  forall acc, scanDirectory e acc = Ok (acc ++ imagesBelow e).
Proof.
  induction e as [nm gf|nm vs flt IH] using entry_ind; [discriminate|].
  intros _ Hff acc. apply faultFree_unfold in Hff as [-> Hall].
  rewrite scanDirectory_unfold. unfold imagesBelow. rewrite filesOf_unfold.
  apply scanLoop_ok; assumption.
Qed.

Lemma Below_directory f d : Below f d -> isDirectory d = true.
Proof. destruct 1; reflexivity. Qed.

Lemma filesOf_Below f e :
  f ∈ filesOf e <->
  match e with
  | FileHandle _ _ => f = e
  | DirectoryHandle _ _ _ => Below f e
  end.
Proof.
  induction e as [nm gf|nm vs flt IH] using entry_ind.
  - simpl. rewrite list_elem_of_singleton. reflexivity.
  - rewrite filesOf_unfold. rewrite Forall_forall in IH. split.
    + intros Hin. apply list_elem_of_join in Hin as [l [Hfl Hl]].
      apply list_elem_of_fmap in Hl as [x [-> Hx]].
      pose proof (proj1 (IH x Hx) Hfl) as Hb.
      destruct x as [nm' gf'|nm' vs' flt'].
      * subst f. eapply below_here; [reflexivity|exact Hx].
      * eapply below_nested; [exact Hx|exact Hb].
    + intros Hb. apply list_elem_of_join.
      inversion Hb as [? ? ? gf' nm' Hf Hin|? ? ? d Hd Hbd]; subst.
      * exists (filesOf (FileHandle nm' gf')). split.
        -- simpl. apply list_elem_of_singleton. reflexivity.
        -- apply list_elem_of_fmap. eauto.
      * exists (filesOf d). split.
        -- apply (IH d Hd). pose proof (Below_directory _ _ Hbd).
           destruct d; [discriminate|exact Hbd].
        -- apply list_elem_of_fmap. eauto.
Qed.

Lemma elem_of_imagesBelow item e :
  item ∈ imagesBelow e <->
  exists f, item = imageFileOf f /\ f ∈ filesOf e /\ isImageName (entry_name f) = true.
Proof.
  unfold imagesBelow. rewrite list_elem_of_fmap. split.
  - intros [f [-> Hf]]. apply list_elem_of_In, List.filter_In in Hf as [Hf Himg].
    exists f. rewrite list_elem_of_In. auto.
  - intros [f [-> [Hf Himg]]]. exists f. split; [reflexivity|].
    apply list_elem_of_In, List.filter_In. rewrite <- list_elem_of_In. auto.
Qed.

Example scan_sampleTree :
  scanDirectory sampleTree []
  = Ok [imageFileOf (FileHandle "a.png" (Ok 1));
        imageFileOf (FileHandle "b.jpg" (Ok 2));
        imageFileOf (FileHandle "d.tar.WebP" (Ok 4));
        imageFileOf (FileHandle "F.JPEG" (Ok 6))].
Proof. vm_compute. reflexivity. Qed.

(** C1: for every directory tree that can be listed, the scanner returns
    exactly the files found at any depth below the root whose extension, the
    substring after the final '.' of the name (the name itself when it has no
    '.'), equals one of jpg, jpeg, png, gif, webp, bmp up to the case of its
    letters; every other file is left out.  The result lists them once each,
    in walk order. *)
Theorem C1_scan_exactly_allowed_extensions name values fault :
  faultFree (DirectoryHandle name values fault) = true ->
  exists found,
    scanDirectory (DirectoryHandle name values fault) [] = Ok found /\
    found = imageFileOf <$>
              List.filter (fun f => isImageName (entry_name f))
                (filesOf (DirectoryHandle name values fault)) /\
    forall item,
      item ∈ found <->
      exists f suf e,
        item = imageFileOf f /\
        Below f (DirectoryHandle name values fault) /\
        extensionOf (entry_name f) suf /\
        e ∈ ["jpg"; "jpeg"; "png"; "gif"; "webp"; "bmp"] /\
        equalIgnoringCase suf e.
Proof.
  intros Hff. exists (imagesBelow (DirectoryHandle name values fault)).
  split; [|split].
  - rewrite (scanDirectory_ok (DirectoryHandle name values fault) eq_refl Hff []).
    reflexivity.
  - reflexivity.
  - intros item. rewrite elem_of_imagesBelow. split.
    + intros [f [-> [Hf Himg]]].
      apply isImageName_spec in Himg as [suf [Hs Hin]].
      apply allowed_iff_listed in Hin as [e [He Heq]].
      apply (filesOf_Below f (DirectoryHandle name values fault)) in Hf.
      exists f, suf, e. auto.
    + intros [f [suf [e [-> [Hb [Hs [He Heq]]]]]]]. exists f. split; [reflexivity|]. split.
      * apply (filesOf_Below f (DirectoryHandle name values fault)). exact Hb.
      * apply isImageName_spec. exists suf. split; [exact Hs|].
        apply allowed_iff_listed. eauto.
Qed.

Lemma C1_witness :
  faultFree sampleTree = true /\
  (exists found,
     scanDirectory sampleTree [] = Ok found /\
     found = imageFileOf <$>
               List.filter (fun f => isImageName (entry_name f)) (filesOf sampleTree) /\
     forall item,
       item ∈ found <->
       exists f suf e,
         item = imageFileOf f /\ Below f sampleTree /\
         extensionOf (entry_name f) suf /\
         e ∈ ["jpg"; "jpeg"; "png"; "gif"; "webp"; "bmp"] /\
         equalIgnoringCase suf e) /\
  scanDirectory sampleTree []
  = Ok [imageFileOf (FileHandle "a.png" (Ok 1));
        imageFileOf (FileHandle "b.jpg" (Ok 2));
        imageFileOf (FileHandle "d.tar.WebP" (Ok 4));
        imageFileOf (FileHandle "F.JPEG" (Ok 6))] /\
  (forall found, scanDirectory sampleTree [] = Ok found ->
     imageFileOf (FileHandle "d.tar.WebP" (Ok 4)) ∈ found /\
     (imageFileOf (FileHandle "c.txt" (Ok 3)) ∉ found) /\
     (imageFileOf (FileHandle "e.jpg.bak" (Ok 5)) ∉ found)).
Proof.
  pose proof (C1_scan_exactly_allowed_extensions "root"
                [FileHandle "a.png" (Ok 1);
                 DirectoryHandle "sub"
                   [FileHandle "b.jpg" (Ok 2);
                    FileHandle "c.txt" (Ok 3);
                    DirectoryHandle "deep"
                      [FileHandle "d.tar.WebP" (Ok 4); FileHandle "e.jpg.bak" (Ok 5)] None]
                   None;
                 FileHandle "F.JPEG" (Ok 6)]
                None eq_refl) as Hscan.
  split; [reflexivity|]. split; [exact Hscan|]. split; [reflexivity|].
  intros found Hfound. destruct Hscan as [found' [Hfound' [_ Hiff]]].
  change (scanDirectory sampleTree [] = Ok found') in Hfound'.
  rewrite Hfound in Hfound'. injection Hfound' as <-.
  change (DirectoryHandle "root" _ None) with sampleTree in Hiff.
  split; [|split].
  - apply Hiff. exists (FileHandle "d.tar.WebP" (Ok 4)), "WebP", "webp".
    split; [reflexivity|]. split.
    + apply (filesOf_Below _ sampleTree). apply list_elem_of_In. simpl. tauto.
    + split.
      * split; [reflexivity|]. right. exists "d.tar". reflexivity.
      * split; [apply list_elem_of_In; simpl; tauto|]. simpl. unfold sameLetter.
        repeat split; first [left; reflexivity|right; left; reflexivity].
  - intros Hin. apply Hiff in Hin as [f [suf [e [Hitem [_ [Hs [He Heq]]]]]]].
    injection Hitem as <- _. apply pop_split_extension in Hs.
    vm_compute in Hs. injection Hs as <-.
    repeat (apply elem_of_cons in He as [->|He];
            [vm_compute in Heq; intuition discriminate|]).
    inversion He.
  - intros Hin. apply Hiff in Hin as [f [suf [e [Hitem [_ [Hs [He Heq]]]]]]].
    injection Hitem as <- _. apply pop_split_extension in Hs.
    vm_compute in Hs. injection Hs as <-.
    repeat (apply elem_of_cons in He as [->|He];
            [vm_compute in Heq; intuition discriminate|]).
    inversion He.
Defined.

Example ext_png : ext "png" = Ok "png".
Proof. reflexivity. Qed.

Example ext_dotfile : ext ".jpg" = Ok "jpg".
Proof. reflexivity. Qed.

(** C10: a name without '.' is its own extension: [split] returns the name
    as its only segment, so a file of such a name is kept exactly when the
    lower-cased name is in the allow-list.  A file named png is kept, and so
    is the dotfile .jpg, whose substring after the final '.' is jpg. *)
Theorem C10_dotless_name_is_the_extension name getFile dir :
  hasDot name = false ->
  pop (split "." name) = Some name /\
  ext name = Ok (toLowerCase name) /\
  scanDirectory (DirectoryHandle dir [FileHandle name getFile] None) []
  = Ok (if bool_decide (toLowerCase name ∈ allowedExt)
        then [imageFileOf (FileHandle name getFile)] else []) /\
  scanDirectory
    (DirectoryHandle dir [FileHandle "png" getFile; FileHandle ".jpg" getFile] None) []
  = Ok [imageFileOf (FileHandle "png" getFile); imageFileOf (FileHandle ".jpg" getFile)].
Proof.
  intros Hnd.
  assert (pop (split "." name) = Some name) as Hpop
    by (unfold pop; rewrite (split_no_dot _ Hnd); reflexivity).
  assert (ext name = Ok (toLowerCase name)) as Hext
    by (unfold ext; rewrite Hpop; reflexivity).
  split; [exact Hpop|]. split; [exact Hext|]. split.
  - rewrite scanDirectory_unfold. cbn [scanLoop]. rewrite Hext.
    destruct (bool_decide _); reflexivity.
  - reflexivity.
Qed.

Lemma C10_witness :
  hasDot "png" = false /\
  pop (split "." "png") = Some "png" /\
  ext "png" = Ok (toLowerCase "png") /\
  scanDirectory (DirectoryHandle "pictures" [FileHandle "png" (Ok 7)] None) []
  = Ok (if bool_decide (toLowerCase "png" ∈ allowedExt)
        then [imageFileOf (FileHandle "png" (Ok 7))] else []) /\
  scanDirectory
    (DirectoryHandle "pictures" [FileHandle "png" (Ok 7); FileHandle ".jpg" (Ok 7)] None) []
  = Ok [imageFileOf (FileHandle "png" (Ok 7)); imageFileOf (FileHandle ".jpg" (Ok 7))].
Proof.
  split; [reflexivity|].
  apply (C10_dotless_name_is_the_extension "png" (Ok 7) "pictures"). reflexivity.
Defined.

(** ** Navigation *)

Lemma selectedIndex_setSelectedIndex v st :
  selectedIndex (setSelectedIndex v st) = v.
Proof.
  unfold setSelectedIndex. destruct (decide _) as [->|_]; [reflexivity|].
  destruct v; reflexivity.
Qed.

Lemma images_setSelectedIndex v st : images (setSelectedIndex v st) = images st.
Proof.
  unfold setSelectedIndex. destruct (decide _); [reflexivity|]. destruct v; reflexivity.
Qed.

Lemma zoomStates_setSelectedIndex v st :
  zoomStates (setSelectedIndex v st) = zoomStates st.
Proof.
  unfold setSelectedIndex. destruct (decide _); [reflexivity|]. destruct v; reflexivity.
Qed.

Lemma selectedIndex_saveCurrentState st :
  selectedIndex (saveCurrentState st) = selectedIndex st.
Proof.
  unfold saveCurrentState.
  destruct (transformRef st) as [t|] eqn:Et; destruct (selectedIndex st) as [i|] eqn:Es;
    simpl; congruence.
Qed.

Lemma images_saveCurrentState st : images (saveCurrentState st) = images st.
Proof.
  unfold saveCurrentState. destruct (transformRef st), (selectedIndex st); reflexivity.
Qed.

Lemma transform_eta t :
  {| scale := scale t; positionX := positionX t; positionY := positionY t |} = t.
Proof. destruct t; reflexivity. Qed.

Lemma zoomStates_saveCurrentState st :
  zoomStates (saveCurrentState st)
  = match transformRef st, selectedIndex st with
    | Some t, Some i => <[i := t]> (zoomStates st)
    | _, _ => zoomStates st
    end.
Proof.
  unfold saveCurrentState.
  destruct (transformRef st) as [t|] eqn:Et; destruct (selectedIndex st) as [i|] eqn:Es;
    try reflexivity.
  simpl. rewrite transform_eta. reflexivity.
Qed.

Lemma selectedIndex_handleNext st :
  selectedIndex (handleNext st)
  = nextIndex (Z.of_nat (length (images st))) (selectedIndex st).
Proof.
  unfold handleNext. cbv zeta.
  rewrite selectedIndex_setSelectedIndex, images_saveCurrentState,
    selectedIndex_saveCurrentState. reflexivity.
Qed.

Lemma selectedIndex_handlePrev st :
  selectedIndex (handlePrev st) = prevIndex (selectedIndex st).
Proof.
  unfold handlePrev. cbv zeta.
  rewrite selectedIndex_setSelectedIndex, selectedIndex_saveCurrentState. reflexivity.
Qed.

Lemma images_handleNext st : images (handleNext st) = images st.
Proof.
  unfold handleNext. cbv zeta. rewrite images_setSelectedIndex. apply images_saveCurrentState.
Qed.

Lemma images_handlePrev st : images (handlePrev st) = images st.
Proof.
  unfold handlePrev. cbv zeta. rewrite images_setSelectedIndex. apply images_saveCurrentState.
Qed.

Lemma nextIndex_clamped len i :
  (i < len)%Z -> nextIndex len (Some i) = Some (Z.min (i + 1) (len - 1)).
Proof.
  intros Hi. unfold nextIndex, toNumber.
  destruct (Z.ltb_spec (i + 1) len); f_equal; lia.
Qed.

Lemma prevIndex_clamped i :
  (0 <= i)%Z -> prevIndex (Some i) = Some (Z.max (i - 1) 0).
Proof.
  intros Hi. unfold prevIndex, toNumber.
  destruct (Z.geb_spec (i - 1) 0); f_equal; lia.
Qed.

Lemma iter_handleNext_last st n :
  selectedIndex st = Some (Z.of_nat (length (images st)) - 1)%Z ->
  selectedIndex (Nat.iter n handleNext st) = Some (Z.of_nat (length (images st)) - 1)%Z /\
  images (Nat.iter n handleNext st) = images st.
Proof.
  intros Hsel. induction n as [|n [IHs IHi]]; [auto|].
  simpl. rewrite selectedIndex_handleNext, images_handleNext, IHs, IHi.
  split; [|reflexivity].
  unfold nextIndex, toNumber.
  match goal with |- context [(?a <? ?b)%Z] => destruct (Z.ltb_spec a b) end;
    [lia|reflexivity].
Qed.

Lemma iter_handlePrev_first st n :
  selectedIndex st = Some 0%Z ->
  selectedIndex (Nat.iter n handlePrev st) = Some 0%Z.
Proof.
  intros Hsel. induction n as [|n IH]; [exact Hsel|].
  simpl. rewrite selectedIndex_handlePrev, IH. reflexivity.
Qed.

(** C2: with L assets and a selected index i of the list, next selects
    min(i+1, L-1) and prev selects max(i-1, 0), whether triggered by the
    arrow keys or by the viewer buttons; any number of next from L-1 stays at
    L-1 and any number of prev from 0 stays at 0. *)
Theorem C2_next_prev_clamped st i :
  selectedIndex st = Some i ->
  (0 <= i < Z.of_nat (length (images st)))%Z ->
  let L := Z.of_nat (length (images st)) in
  selectedIndex (handleNext st) = Some (Z.min (i + 1) (L - 1)) /\
  selectedIndex (handlePrev st) = Some (Z.max (i - 1) 0) /\
  selectedIndex (step (KeyDown "ArrowRight") st) = Some (Z.min (i + 1) (L - 1)) /\
  selectedIndex (step (KeyDown "ArrowLeft") st) = Some (Z.max (i - 1) 0) /\
  selectedIndex (step ClickNext st) = Some (Z.min (i + 1) (L - 1)) /\
  selectedIndex (step ClickPrev st) = Some (Z.max (i - 1) 0) /\
  (i = (L - 1)%Z -> forall n, selectedIndex (Nat.iter n handleNext st) = Some (L - 1)%Z) /\
  (i = 0%Z -> forall n, selectedIndex (Nat.iter n handlePrev st) = Some 0%Z).
Proof.
  intros Hsel Hrange L.
  assert (selectedIndex (handleNext st) = Some (Z.min (i + 1) (L - 1))) as Hn
    by (rewrite selectedIndex_handleNext, Hsel; apply nextIndex_clamped; lia).
  assert (selectedIndex (handlePrev st) = Some (Z.max (i - 1) 0)) as Hp
    by (rewrite selectedIndex_handlePrev, Hsel; apply prevIndex_clamped; lia).
  repeat split.
  - exact Hn.
  - exact Hp.
  - simpl. unfold handleKeyDown. rewrite Hsel. simpl. exact Hn.
  - simpl. unfold handleKeyDown. rewrite Hsel. simpl. exact Hp.
  - simpl. rewrite Hsel. fold L. destruct (decide (i = (L - 1)%Z)) as [->|_]; [|exact Hn].
    rewrite Hsel. f_equal. lia.
  - simpl. rewrite Hsel. destruct (decide (i = 0%Z)) as [->|_]; [|exact Hp].
    rewrite Hsel. reflexivity.
  - intros -> n. apply iter_handleNext_last. exact Hsel.
  - intros -> n. apply iter_handlePrev_first. exact Hsel.
Qed.

(** ** Zoom memory *)

Lemma handleKeyDown_cases key st :
  handleKeyDown key st
  = match selectedIndex st with
    | None => st
    | Some _ =>
        if decide (key = "ArrowRight") then handleNext st
        else if decide (key = "ArrowLeft") then handlePrev st
        else if decide (key = "Escape") then setSelectedIndex None st
        else st
    end.
Proof.
  unfold handleKeyDown. destruct (selectedIndex st); [|reflexivity].
  repeat case_decide; subst; try reflexivity; discriminate.
Qed.

Lemma zoomStates_handleNext st :
  zoomStates (handleNext st) = zoomStates (saveCurrentState st).
Proof. unfold handleNext. cbv zeta. apply zoomStates_setSelectedIndex. Qed.

Lemma zoomStates_handlePrev st :
  zoomStates (handlePrev st) = zoomStates (saveCurrentState st).
Proof. unfold handlePrev. cbv zeta. apply zoomStates_setSelectedIndex. Qed.

Lemma zoomStates_save_same st i p :
  selectedIndex st = Some i -> transformRef st = Some p ->
  zoomStates (saveCurrentState st) !! i = Some p.
Proof.
  intros Hs Ht. rewrite zoomStates_saveCurrentState, Hs, Ht. apply lookup_insert_eq.
Qed.

Lemma zoomStates_save_other st i :
  selectedIndex st <> Some i ->
  zoomStates (saveCurrentState st) !! i = zoomStates st !! i.
Proof.
  intros Hs. rewrite zoomStates_saveCurrentState.
  destruct (transformRef st) as [t|]; [|reflexivity].
  destruct (selectedIndex st) as [j|]; [|reflexivity].
  apply lookup_insert_ne. congruence.
Qed.

Lemma zoomStates_step_other ev st i :
  is_ui_event ev -> selectedIndex st <> Some i ->
  zoomStates (step ev st) !! i = zoomStates st !! i.
Proof.
  intros Hui Hs. destruct ev as [k| | | |key|t|picker sched]; simpl.
  - case_decide; [rewrite zoomStates_setSelectedIndex|]; reflexivity.
  - destruct (selectedIndex st) as [j|] eqn:Hj; [|reflexivity].
    case_decide; [reflexivity|].
    rewrite zoomStates_handlePrev. apply zoomStates_save_other. congruence.
  - destruct (selectedIndex st) as [j|] eqn:Hj; [|reflexivity].
    case_decide; [reflexivity|].
    rewrite zoomStates_handleNext. apply zoomStates_save_other. congruence.
  - destruct (selectedIndex st); [rewrite zoomStates_setSelectedIndex|]; reflexivity.
  - rewrite handleKeyDown_cases.
    destruct (selectedIndex st) as [j|] eqn:Hj; [|reflexivity].
    repeat case_decide.
    + rewrite zoomStates_handleNext. apply zoomStates_save_other. congruence.
    + rewrite zoomStates_handlePrev. apply zoomStates_save_other. congruence.
    + rewrite zoomStates_setSelectedIndex. reflexivity.
    + reflexivity.
  - destruct (transformRef st); reflexivity.
  - destruct Hui.
Qed.

Lemma staysAway_head i evs st : staysAway i evs st -> selectedIndex st <> Some i.
Proof. destruct evs; intros [Hs _]; exact Hs. Qed.

Lemma zoomStates_run_away i evs st :
  staysAway i evs st -> zoomStates (run evs st) !! i = zoomStates st !! i.
Proof.
  revert st. induction evs as [|ev evs IH]; intros st; [reflexivity|].
  intros [Hs [Hui Hrest]]. unfold run in *. simpl.
  rewrite (IH _ Hrest). apply zoomStates_step_other; assumption.
Qed.

Lemma selectedIndex_run_away i evs st :
  staysAway i evs st -> selectedIndex (run evs st) <> Some i.
Proof.
  revert st. induction evs as [|ev evs IH]; intros st.
  - intros [Hs _]. exact Hs.
  - intros [_ [_ Hrest]]. unfold run in *. simpl. apply IH. exact Hrest.
Qed.

Lemma initialState_with_transformRef t st :
  initialState (with_transformRef t st) = initialState st.
Proof. reflexivity. Qed.

Lemma setSelectedIndex_mount i st :
  selectedIndex st <> Some i ->
  transformRef (setSelectedIndex (Some i) st)
  = Some (initialState (setSelectedIndex (Some i) st)).
Proof.
  intros Hs. unfold setSelectedIndex. destruct (decide _) as [Heq|_]; [congruence|].
  reflexivity.
Qed.

Lemma handleNext_mount i st :
  selectedIndex st <> Some i -> selectedIndex (handleNext st) = Some i ->
  transformRef (handleNext st) = Some (initialState (handleNext st)).
Proof.
  intros Hs Hi. pose proof Hi as Hi'. rewrite selectedIndex_handleNext in Hi'.
  unfold handleNext in *. cbv zeta in *.
  rewrite images_saveCurrentState, selectedIndex_saveCurrentState, Hi'.
  apply setSelectedIndex_mount. rewrite selectedIndex_saveCurrentState. exact Hs.
Qed.

Lemma handlePrev_mount i st :
  selectedIndex st <> Some i -> selectedIndex (handlePrev st) = Some i ->
  transformRef (handlePrev st) = Some (initialState (handlePrev st)).
Proof.
  intros Hs Hi. pose proof Hi as Hi'. rewrite selectedIndex_handlePrev in Hi'.
  unfold handlePrev in *. cbv zeta in *.
  rewrite selectedIndex_saveCurrentState, Hi'.
  apply setSelectedIndex_mount. rewrite selectedIndex_saveCurrentState. exact Hs.
Qed.

Lemma step_mount ev st i :
  is_ui_event ev -> selectedIndex st <> Some i -> selectedIndex (step ev st) = Some i ->
  transformRef (step ev st) = Some (initialState (step ev st)).
Proof.
  intros Hui Hs. destruct ev as [k| | | |key|t|picker sched]; simpl.
  - case_decide; [|congruence]. rewrite selectedIndex_setSelectedIndex.
    intros [= <-]. apply setSelectedIndex_mount. exact Hs.
  - destruct (selectedIndex st) as [j|] eqn:Hj; [|congruence].
    case_decide; [congruence|]. apply handlePrev_mount. congruence.
  - destruct (selectedIndex st) as [j|] eqn:Hj; [|congruence].
    case_decide; [congruence|]. apply handleNext_mount. congruence.
  - destruct (selectedIndex st) as [j|] eqn:Hj; [|congruence].
    rewrite selectedIndex_setSelectedIndex. discriminate.
  - rewrite handleKeyDown_cases.
    destruct (selectedIndex st) as [j|] eqn:Hj; [|congruence].
    repeat case_decide.
    + apply handleNext_mount. congruence.
    + apply handlePrev_mount. congruence.
    + rewrite selectedIndex_setSelectedIndex. discriminate.
    + congruence.
  - destruct (transformRef st); simpl; congruence.
  - destruct Hui.
Qed.

Lemma zoomStates_nav_saved nav st i p :
  is_next_or_prev nav ->
  selectedIndex st = Some i -> transformRef st = Some p ->
  selectedIndex (step nav st) <> Some i ->
  zoomStates (step nav st) !! i = Some p.
Proof.
  intros Hnav Hs Ht. destruct Hnav as [-> | [-> | [-> | ->]]]; simpl.
  - rewrite Hs. case_decide; [congruence|]. intros _.
    rewrite zoomStates_handleNext. apply zoomStates_save_same; assumption.
  - rewrite Hs. case_decide; [congruence|]. intros _.
    rewrite zoomStates_handlePrev. apply zoomStates_save_same; assumption.
  - rewrite handleKeyDown_cases, Hs. simpl. intros _.
    rewrite zoomStates_handleNext. apply zoomStates_save_same; assumption.
  - rewrite handleKeyDown_cases, Hs. simpl. intros _.
    rewrite zoomStates_handlePrev. apply zoomStates_save_same; assumption.
Qed.

(** C3: when the viewer shows index i with pan/zoom parameters p and the
    user leaves i with next or prev, the next time the viewer arrives at i
    (by a card, a button or a key, after any events that keep it away from i
    and with no folder load in between) it starts from p: [initialState] is
    p, centring on init is off, and the mounted viewer holds p. *)
Theorem C3_zoom_restored_on_reopen st i p nav evs ev :
  selectedIndex st = Some i ->
  transformRef st = Some p ->
  is_next_or_prev nav ->
  staysAway i evs (step nav st) ->
  is_ui_event ev ->
  selectedIndex (step ev (run evs (step nav st))) = Some i ->
  initialState (step ev (run evs (step nav st))) = p /\
  centerOnInit (step ev (run evs (step nav st))) = false /\
  transformRef (step ev (run evs (step nav st))) = Some p.
Proof.
  intros Hs Ht Hnav Haway Hui Hback.
  assert (zoomStates (step ev (run evs (step nav st))) !! i = Some p) as Hz.
  { rewrite zoomStates_step_other
      by (try exact Hui; apply (selectedIndex_run_away _ _ _ Haway)).
    rewrite (zoomStates_run_away _ _ _ Haway).
    apply zoomStates_nav_saved; try assumption.
    apply (staysAway_head _ _ _ Haway). }
  assert (initialState (step ev (run evs (step nav st))) = p) as Hinit
    by (unfold initialState; rewrite Hback, Hz; reflexivity).
  split; [exact Hinit|]. split.
  - unfold centerOnInit. rewrite Hback, Hz. reflexivity.
  - rewrite (step_mount ev _ i Hui (selectedIndex_run_away _ _ _ Haway) Hback).
    rewrite Hinit. reflexivity.
Qed.

Lemma C2_witness :
  selectedIndex (viewing 2 zoomed) = Some 2%Z /\
  (0 <= 2 < Z.of_nat (length (images (viewing 2 zoomed))))%Z /\
  let st := viewing 2 zoomed in
  let L := Z.of_nat (length (images st)) in
  selectedIndex (handleNext st) = Some (Z.min (2 + 1) (L - 1)) /\
  selectedIndex (handlePrev st) = Some (Z.max (2 - 1) 0) /\
  selectedIndex (step (KeyDown "ArrowRight") st) = Some (Z.min (2 + 1) (L - 1)) /\
  selectedIndex (step (KeyDown "ArrowLeft") st) = Some (Z.max (2 - 1) 0) /\
  selectedIndex (step ClickNext st) = Some (Z.min (2 + 1) (L - 1)) /\
  selectedIndex (step ClickPrev st) = Some (Z.max (2 - 1) 0) /\
  (2%Z = (L - 1)%Z -> forall n, selectedIndex (Nat.iter n handleNext st) = Some (L - 1)%Z) /\
  (2%Z = 0%Z -> forall n, selectedIndex (Nat.iter n handlePrev st) = Some 0%Z).
Proof.
  split; [reflexivity|]. split; [simpl; lia|].
  apply (C2_next_prev_clamped (viewing 2 zoomed) 2); [reflexivity|simpl; lia].
Defined.

Example three_next_from_zero :
  selectedIndex (run [ClickCard 0; KeyDown "ArrowRight"; ClickNext; KeyDown "ArrowRight"]
                   (with_transformRef None (with_selectedIndex None (viewing 0 zoomed))))
  = Some 2%Z.
Proof. vm_compute. reflexivity. Qed.

Lemma C3_witness :
  let st := viewing 1 zoomed in
  let back := step (KeyDown "ArrowLeft")
                (run [Gesture defaultTransform] (step (KeyDown "ArrowRight") st)) in
  selectedIndex st = Some 1%Z /\
  transformRef st = Some zoomed /\
  is_next_or_prev (KeyDown "ArrowRight") /\
  staysAway 1 [Gesture defaultTransform] (step (KeyDown "ArrowRight") st) /\
  is_ui_event (KeyDown "ArrowLeft") /\
  selectedIndex back = Some 1%Z /\
  initialState back = zoomed /\ centerOnInit back = false /\ transformRef back = Some zoomed.
Proof.
  assert (staysAway 1 [Gesture defaultTransform]
            (step (KeyDown "ArrowRight") (viewing 1 zoomed))) as Haway
    by (vm_compute; repeat split; discriminate).
  assert (is_next_or_prev (KeyDown "ArrowRight")) as Hnav
    by (right; right; left; reflexivity).
  assert (selectedIndex
            (step (KeyDown "ArrowLeft")
               (run [Gesture defaultTransform]
                  (step (KeyDown "ArrowRight") (viewing 1 zoomed)))) = Some 1%Z) as Hback
    by (vm_compute; reflexivity).
  intros st back.
  split; [reflexivity|]. split; [reflexivity|]. split; [exact Hnav|].
  split; [exact Haway|]. split; [exact I|]. split; [exact Hback|].
  exact (C3_zoom_restored_on_reopen (viewing 1 zoomed) 1 zoomed (KeyDown "ArrowRight")
           [Gesture defaultTransform] (KeyDown "ArrowLeft")
           eq_refl eq_refl Hnav Haway I Hback).
Defined.

(** C4 as claimed fails: closing the viewer, by the close button or by
    Escape, does not store the current pan/zoom parameters. *)
Lemma C4_counterexample :
  ~ (forall st i p ev,
       is_close ev -> selectedIndex st = Some i -> transformRef st = Some p ->
       zoomStates (step ev st) !! i = Some p).
Proof.
  intros H.
  specialize (H (viewing 0 zoomed) 0%Z zoomed ClickClose (or_introl eq_refl) eq_refl eq_refl).
  vm_compute in H. discriminate H.
Qed.

(** C4, amended: the entry of index i is created or overwritten with the
    current pan/zoom parameters each time the viewer leaves i by next or prev
    (arrow key or button); the close transition (close button or Escape)
    clears the selection and leaves the zoom memory as it was. *)
Theorem C4_zoom_saved_on_next_prev_not_on_close st i p :
  selectedIndex st = Some i ->
  transformRef st = Some p ->
  zoomStates (handleNext st) !! i = Some p /\
  zoomStates (handlePrev st) !! i = Some p /\
  (forall nav, is_next_or_prev nav -> selectedIndex (step nav st) <> Some i ->
               zoomStates (step nav st) !! i = Some p) /\
  (forall ev, is_close ev ->
              selectedIndex (step ev st) = None /\ zoomStates (step ev st) = zoomStates st).
Proof.
  intros Hs Ht. split; [|split; [|split]].
  - rewrite zoomStates_handleNext. apply zoomStates_save_same; assumption.
  - rewrite zoomStates_handlePrev. apply zoomStates_save_same; assumption.
  - intros nav Hnav Hmoved. apply zoomStates_nav_saved; assumption.
  - intros ev [-> | ->]; simpl.
    + rewrite Hs, selectedIndex_setSelectedIndex, zoomStates_setSelectedIndex. auto.
    + rewrite handleKeyDown_cases, Hs. simpl.
      rewrite selectedIndex_setSelectedIndex, zoomStates_setSelectedIndex. auto.
Qed.

Lemma C4_witness :
  let st := viewing 1 zoomed in
  selectedIndex st = Some 1%Z /\
  transformRef st = Some zoomed /\
  zoomStates (handleNext st) !! 1%Z = Some zoomed /\
  zoomStates (handlePrev st) !! 1%Z = Some zoomed /\
  (forall nav, is_next_or_prev nav -> selectedIndex (step nav st) <> Some 1%Z ->
               zoomStates (step nav st) !! 1%Z = Some zoomed) /\
  (forall ev, is_close ev ->
              selectedIndex (step ev st) = None /\ zoomStates (step ev st) = zoomStates st).
Proof.
  split; [reflexivity|]. split; [reflexivity|].
  apply (C4_zoom_saved_on_next_prev_not_on_close (viewing 1 zoomed) 1 zoomed); reflexivity.
Defined.

(** ** Materialisation *)

Section Materialisation.

(** The array [imageFiles] handed to [Promise.all]. *)
Variable items : list ImageFile.

Lemma materialize_readable item url :
  readable item = true ->
  exists img,
    materialize item url = Ok img /\
    img_name img = if_name item /\ img_handle img = if_handle item.
Proof.
  unfold readable, materialize. destruct (if_handle item) as [nm [file|e]|nm vs flt];
    try discriminate.
  intros _. eexists. split; [reflexivity|]. split; reflexivity.
Qed.

Lemma materialize_unreadable item url :
  readable item = false -> exists e, materialize item url = Throw e.
Proof.
  unfold readable, materialize. destruct (if_handle item) as [nm [file|e]|nm vs flt];
    try discriminate; eauto.
Qed.

Lemma nodup_range_length (l : list nat) n :
  NoDup l -> (forall k, k ∈ l -> k < n) -> length l <= n.
Proof.
  intros Hnd Hr. rewrite <- (length_seq n 0). apply submseteq_length.
  apply NoDup_submseteq; [exact Hnd|].
  intros k Hk. apply elem_of_seq. specialize (Hr k Hk). lia.
Qed.

Lemma nodup_range_full (l : list nat) n :
  NoDup l -> (forall k, k ∈ l -> k < n) -> n <= length l ->
  forall k, k < n -> k ∈ l.
Proof.
  intros Hnd Hr Hlen k Hk.
  assert (l ≡ₚ seq 0 n) as Hp.
  { apply submseteq_length_Permutation; [|rewrite length_seq; exact Hlen].
    apply NoDup_submseteq; [exact Hnd|].
    intros j Hj. apply elem_of_seq. specialize (Hr j Hj). lia. }
  rewrite Hp. apply elem_of_seq. lia.
Qed.

Lemma AllInv_start : AllInv items [] (promiseAllStart (length items)).
Proof.
  split; simpl.
  - constructor.
  - intros k Hk. inversion Hk.
  - apply length_replicate.
  - lia.
  - intros k Hk. inversion Hk.
  - intros k _ Hk. apply lookup_replicate_2. exact Hk.
  - destruct (length items); reflexivity.
Qed.

Lemma AllInv_step done p url k item :
  AllInv items done p ->
  k ∉ done -> items !! k = Some item -> readable item = true ->
  AllInv items (k :: done) (fst (settleOne items k (p, url))).
Proof.
  intros [Hnd Hr Hlen Hcnt Hfill Hholes Hst] Hk Hitem Hread.
  pose proof (lookup_lt_Some _ _ _ Hitem) as Hkn.
  assert (NoDup (k :: done)) as Hnd' by (constructor; assumption).
  assert (forall j, j ∈ k :: done -> j < length items) as Hr'.
  { intros j Hj. apply elem_of_cons in Hj as [->|Hj]; [exact Hkn|apply Hr, Hj]. }
  pose proof (nodup_range_length _ _ Hnd' Hr') as Hle. simpl in Hle.
  unfold settleOne. rewrite Hitem. simpl snd. simpl fst.
  destruct (materialize_readable item url Hread) as [img [-> [Hname Hhandle]]].
  split; simpl.
  - exact Hnd'.
  - exact Hr'.
  - rewrite length_insert. exact Hlen.
  - lia.
  - intros j Hj. apply elem_of_cons in Hj as [->|Hj].
    + exists item, img. split; [exact Hitem|]. split; [|auto].
      apply list_lookup_insert_eq. lia.
    + destruct (Hfill j Hj) as [item' [img' [Hi' [Hv' Hn']]]].
      exists item', img'. split; [exact Hi'|]. split; [|exact Hn'].
      rewrite list_lookup_insert_ne by (intros ->; contradiction). exact Hv'.
  - intros j Hj Hjn. apply not_elem_of_cons in Hj as [Hjk Hj].
    rewrite list_lookup_insert_ne by congruence. apply Hholes; assumption.
  - rewrite Hst. destruct (pa_remaining p) as [|r]; [lia|]. reflexivity.
Qed.

Lemma settleAll_cons k sched ps :
  settleAll items (k :: sched) ps = settleAll items sched (settleOne items k ps).
Proof. reflexivity. Qed.

Lemma settleAll_app pre post ps :
  settleAll items (pre ++ post) ps = settleAll items post (settleAll items pre ps).
Proof. unfold settleAll. apply foldl_app. Qed.

Lemma AllInv_run sched :
  forall done p url,
    AllInv items done p ->
    NoDup sched ->
    (forall k, k ∈ sched -> k ∉ done) ->
    (forall k, k ∈ sched -> exists item, items !! k = Some item /\ readable item = true) ->
    AllInv items (reverse sched ++ done) (fst (settleAll items sched (p, url))).
Proof.
  induction sched as [|k sched IH]; intros done p url Hinv Hnd Hfresh Hread.
  - exact Hinv.
  - inversion Hnd as [|? ? Hk Hnd']; subst.
    destruct (Hread k) as [item [Hitem Hr]]; [left|].
    pose proof (AllInv_step done p url k item Hinv
                  (Hfresh k ltac:(left)) Hitem Hr) as Hstep.
    rewrite settleAll_cons.
    destruct (settleOne items k (p, url)) as [p1 url1]. simpl in Hstep.
    rewrite reverse_cons, <- app_assoc. simpl.
    apply IH; [exact Hstep|exact Hnd'| |].
    + intros j Hj Hin. apply elem_of_cons in Hin as [->|Hin]; [contradiction|].
      apply (Hfresh j); [right; exact Hj|exact Hin].
    + intros j Hj. apply Hread. right. exact Hj.
Qed.

Lemma settleOne_settled k p url :
  pa_state p <> Pending ->
  pa_state (fst (settleOne items k (p, url))) = pa_state p.
Proof.
  intros Hp. unfold settleOne. destruct (items !! k) as [item|]; [|reflexivity].
  simpl. destruct (materialize item url); simpl; destruct (pa_state p); congruence.
Qed.

Lemma settleAll_settled sched :
  forall p url,
    pa_state p <> Pending ->
    pa_state (fst (settleAll items sched (p, url))) = pa_state p.
Proof.
  induction sched as [|k sched IH]; intros p url Hp; [reflexivity|].
  rewrite settleAll_cons.
  pose proof (settleOne_settled k p url Hp) as Hone.
  destruct (settleOne items k (p, url)) as [p1 url1]. simpl in Hone.
  rewrite IH by congruence. exact Hone.
Qed.

Lemma omap_id_filled {A} (vs : list (option A)) :
  (forall k, k < length vs -> exists x, vs !! k = Some (Some x)) ->
  Some <$> omap id vs = vs.
Proof.
  induction vs as [|o vs IH]; intros Hall; [reflexivity|].
  destruct (Hall 0) as [x Hx]; [simpl; lia|]. simpl in Hx. injection Hx as ->.
  change (Some x :: (Some <$> omap id vs) = Some x :: vs). f_equal. apply IH.
  intros k Hk. apply (Hall (S k)). simpl. lia.
Qed.

Lemma first_unreadable sched :
  (exists k item, k ∈ sched /\ items !! k = Some item /\ readable item = false) ->
  (forall k, k ∈ sched -> k < length items) ->
  exists pre k item post,
    sched = pre ++ k :: post /\
    items !! k = Some item /\ readable item = false /\
    forall j, j ∈ pre -> exists it, items !! j = Some it /\ readable it = true.
Proof.
  induction sched as [|k sched IH]; intros [j [item [Hj [Hitem Hbad]]]] Hr.
  - inversion Hj.
  - destruct (lookup_lt_is_Some_2 items k (Hr k ltac:(left))) as [itk Hk].
    destruct (readable itk) eqn:Hrk.
    + destruct IH as [pre [k' [it' [post [-> [Hi' [Hb' Hpre]]]]]]].
      * apply elem_of_cons in Hj as [->|Hj]; [congruence|]. eauto.
      * intros i Hi. apply Hr. right. exact Hi.
      * exists (k :: pre), k', it', post. split; [reflexivity|]. split; [exact Hi'|].
        split; [exact Hb'|]. intros i Hi.
        apply elem_of_cons in Hi as [->|Hi]; [eauto|apply Hpre, Hi].
    + exists [], k, itk, sched. split; [reflexivity|]. split; [exact Hk|].
      split; [exact Hrk|]. intros i Hi. inversion Hi.
Qed.

Lemma promiseAll_inv sched url :
  NoDup sched ->
  (forall k, k ∈ sched -> exists item, items !! k = Some item /\ readable item = true) ->
  AllInv items (reverse sched ++ []) (fst (promiseAll items sched url)).
Proof.
  intros Hnd Hread. unfold promiseAll.
  apply AllInv_run; [apply AllInv_start|exact Hnd| |exact Hread].
  intros k _ Hk. inversion Hk.
Qed.

Lemma promiseAll_fulfilled sched url :
  NoDup sched ->
  (forall k, k ∈ sched <-> k < length items) ->
  (forall item, item ∈ items -> readable item = true) ->
  exists loaded,
    pa_state (fst (promiseAll items sched url)) = Fulfilled loaded /\
    length loaded = length items /\
    forall i item, items !! i = Some item ->
      exists img, loaded !! i = Some img /\
                  img_name img = if_name item /\ img_handle img = if_handle item.
Proof.
  intros Hnd Hall Hread.
  assert (forall k, k ∈ sched -> exists item, items !! k = Some item /\ readable item = true)
    as Hread'.
  { intros k Hk. apply Hall in Hk.
    destruct (lookup_lt_is_Some_2 items k Hk) as [item Hitem].
    exists item. split; [exact Hitem|]. apply Hread.
    apply list_elem_of_lookup. eauto. }
  destruct (promiseAll_inv sched url Hnd Hread')
    as [_ _ Hlen Hcnt Hfill _ Hst].
  set (p := fst (promiseAll items sched url)) in *.
  assert (length sched = length items) as Hsl.
  { apply Nat.le_antisymm.
    - apply nodup_range_length; [exact Hnd|]. intros k Hk. apply Hall, Hk.
    - rewrite <- (length_seq (length items) 0). apply submseteq_length.
      apply NoDup_submseteq; [apply NoDup_seq|].
      intros k Hk. apply elem_of_seq in Hk. apply Hall. lia. }
  rewrite app_nil_r, length_reverse in Hcnt.
  assert (pa_remaining p = 0) as Hrem by lia.
  rewrite Hrem in Hst. simpl in Hst.
  assert (Some <$> omap id (pa_values p) = pa_values p) as Hsome.
  { apply omap_id_filled. intros k Hk. rewrite Hlen in Hk.
    destruct (Hfill k) as [item [img [_ [Hv _]]]]; [|eauto].
    rewrite app_nil_r. apply elem_of_reverse, Hall, Hk. }
  exists (omap id (pa_values p)). split; [exact Hst|]. split.
  - transitivity (length (Some <$> omap id (pa_values p)));
      [rewrite length_fmap; reflexivity|rewrite Hsome; exact Hlen].
  - intros i item Hitem.
    destruct (Hfill i) as [item' [img [Hi' [Hv Hn]]]].
    { rewrite app_nil_r. apply elem_of_reverse, Hall. eapply lookup_lt_Some, Hitem. }
    rewrite Hitem in Hi'. injection Hi' as <-.
    exists img. split; [|exact Hn].
    rewrite <- Hsome, list_lookup_fmap in Hv.
    destruct (omap id (pa_values p) !! i); simpl in Hv; congruence.
Qed.

Lemma promiseAll_pending sched url :
  NoDup sched ->
  (forall k, k ∈ sched -> exists item, items !! k = Some item /\ readable item = true) ->
  (exists k, k < length items /\ k ∉ sched) ->
  pa_state (fst (promiseAll items sched url)) = Pending.
Proof.
  intros Hnd Hread [k [Hk Hnot]].
  destruct (promiseAll_inv sched url Hnd Hread) as [_ Hr _ Hcnt _ _ Hst].
  rewrite app_nil_r in *. rewrite length_reverse in Hcnt.
  assert (length sched < length items) as Hlt.
  { destruct (Nat.lt_ge_cases (length sched) (length items)) as [?|Hge]; [assumption|].
    exfalso. apply Hnot.
    apply (nodup_range_full sched (length items)); try assumption.
    intros j Hj. apply Hr, elem_of_reverse, Hj. }
  rewrite Hst. destruct (pa_remaining _); [lia|reflexivity].
Qed.

Lemma promiseAll_rejected sched url :
  NoDup sched ->
  (forall k, k ∈ sched -> k < length items) ->
  (exists k item, k ∈ sched /\ items !! k = Some item /\ readable item = false) ->
  exists e, pa_state (fst (promiseAll items sched url)) = Rejected e.
Proof.
  intros Hnd Hr Hbad.
  destruct (first_unreadable sched Hbad Hr)
    as [pre [k [item [post [-> [Hitem [Hunread Hpre]]]]]]].
  apply NoDup_app in Hnd as [Hndpre [Hdisj Hndpost]].
  unfold promiseAll. rewrite settleAll_app, settleAll_cons.
  pose proof (promiseAll_inv pre url Hndpre Hpre) as [_ _ _ Hcnt _ _ Hst].
  unfold promiseAll in *.
  destruct (settleAll items pre (promiseAllStart (length items), url)) as [p1 url1].
  simpl in Hcnt, Hst. rewrite app_nil_r, length_reverse in Hcnt.
  assert (length (k :: pre) <= length items) as Hle.
  { apply nodup_range_length.
    - constructor; [|exact Hndpre]. intros Hin. apply (Hdisj k Hin). left.
    - intros j Hj. apply Hr. apply elem_of_cons in Hj as [->|Hj].
      + apply elem_of_app. right. left.
      + apply elem_of_app. left. exact Hj. }
  simpl in Hle.
  assert (pa_state p1 = Pending) as Hp1
    by (rewrite Hst; destruct (pa_remaining p1); [lia|reflexivity]).
  destruct (materialize_unreadable item url1 Hunread) as [e He].
  assert (settleOne items k (p1, url1)
          = ({| pa_values := pa_values p1; pa_remaining := pa_remaining p1;
                pa_state := Rejected e |}, url1)) as Hone.
  { unfold settleOne. rewrite Hitem. simpl. rewrite He, Hp1. reflexivity. }
  rewrite Hone. exists e. rewrite settleAll_settled; [reflexivity|discriminate].
Qed.

End Materialisation.

(** ** The load operation *)

Lemma handleOpenFolder_scanned dirHandle imageFiles sched st :
  scanDirectory dirHandle [] = Ok imageFiles ->
  handleOpenFolder (Ok dirHandle) sched st
  = let pu := promiseAll imageFiles sched (nextUrl st) in
    let st2 := with_nextUrl (snd pu) (beginLoad st) in
    match pa_state (fst pu) with
    | Fulfilled loadedImages => finallyBlock (setImages loadedImages st2)
    | Rejected err => finallyBlock (catchBlock err st2)
    | Pending => st2
    end.
Proof.
  intros Hscan. unfold handleOpenFolder. rewrite Hscan. cbv zeta.
  change (nextUrl (beginLoad st)) with (nextUrl st).
  destruct (promiseAll imageFiles sched (nextUrl st)); reflexivity.
Qed.

Lemma images_catchBlock err st : images (catchBlock err st) = images st.
Proof. unfold catchBlock. case_decide; reflexivity. Qed.

Lemma selectedIndex_catchBlock err st :
  selectedIndex (catchBlock err st) = selectedIndex st.
Proof. unfold catchBlock. case_decide; reflexivity. Qed.

Lemma zoomStates_catchBlock err st : zoomStates (catchBlock err st) = zoomStates st.
Proof. unfold catchBlock. case_decide; reflexivity. Qed.

Lemma revokedUrls_catchBlock err st : revokedUrls (catchBlock err st) = revokedUrls st.
Proof. unfold catchBlock. case_decide; reflexivity. Qed.

Lemma catchBlock_abort err st : err_name err = "AbortError" -> catchBlock err st = st.
Proof. intros H. unfold catchBlock. case_decide; [contradiction|reflexivity]. Qed.

(** What a completed load leaves behind: the new list, an empty zoom memory,
    the old URLs revoked, and the selection as it was. *)
Lemma successful_load_state dirHandle imageFiles sched st loaded :
  scanDirectory dirHandle [] = Ok imageFiles ->
  pa_state (fst (promiseAll imageFiles sched (nextUrl st))) = Fulfilled loaded ->
  let st' := handleOpenFolder (Ok dirHandle) sched st in
  images st' = loaded /\
  zoomStates st' = ∅ /\
  revokedUrls st' = revokedUrls st ++ map img_url (images st) /\
  loading st' = false /\
  selectedIndex st' = selectedIndex st.
Proof.
  intros Hscan Hfull. cbv zeta.
  rewrite (handleOpenFolder_scanned _ _ _ _ Hscan). cbv zeta. rewrite Hfull.
  simpl. rewrite app_nil_r. auto.
Qed.

(** C9: when every materialisation completes, in whatever order, the
    published list has one entry per scanned entry and the i-th asset carries
    the name and handle of the i-th scanned entry; while some materialisation
    has not completed nothing is published; and when one fails the load fails
    as a whole and nothing is published. *)
Theorem C9_materialized_list_keeps_scan_order st dirHandle imageFiles sched :
  scanDirectory dirHandle [] = Ok imageFiles ->
  NoDup sched ->
  (forall k, k ∈ sched -> k < length imageFiles) ->
  let st' := handleOpenFolder (Ok dirHandle) sched st in
  ((forall k, k < length imageFiles -> k ∈ sched) ->
   (forall item, item ∈ imageFiles -> readable item = true) ->
   length (images st') = length imageFiles /\
   loading st' = false /\
   forall i item, imageFiles !! i = Some item ->
     exists img, images st' !! i = Some img /\
                 img_name img = if_name item /\ img_handle img = if_handle item) /\
  ((exists k, k < length imageFiles /\ k ∉ sched) ->
   (forall k, k ∈ sched -> exists item, imageFiles !! k = Some item /\ readable item = true) ->
   images st' = [] /\ loading st' = true) /\
  ((exists k item, k ∈ sched /\ imageFiles !! k = Some item /\ readable item = false) ->
   images st' = [] /\ loading st' = false /\
   exists err, loadError (Ok dirHandle) sched (nextUrl st) = Some err).
Proof.
  intros Hscan Hnd Hrange. cbv zeta.
  rewrite (handleOpenFolder_scanned _ _ _ _ Hscan). cbv zeta.
  split; [|split].
  - intros Hall Hread.
    destruct (promiseAll_fulfilled imageFiles sched (nextUrl st) Hnd) as [loaded [Hst [Hlen Hord]]].
    + intros k. split; [apply Hrange|apply Hall].
    + exact Hread.
    + rewrite Hst. simpl. auto.
  - intros Hmissing Hread.
    rewrite (promiseAll_pending imageFiles sched (nextUrl st) Hnd Hread Hmissing).
    simpl. auto.
  - intros Hbad.
    destruct (promiseAll_rejected imageFiles sched (nextUrl st) Hnd Hrange Hbad) as [e He].
    rewrite He. unfold finallyBlock. simpl loading.
    split; [|split; [reflexivity|]].
    + change (images (catchBlock e (with_nextUrl (snd (promiseAll imageFiles sched (nextUrl st)))
                                      (beginLoad st))) = []).
      rewrite images_catchBlock. reflexivity.
    + exists e. unfold loadError. rewrite Hscan, He. reflexivity.
Qed.

(** C8: when the directory prompt is dismissed (the picker rejects with an
    AbortError) the load shows no alert and logs no error, ends with the busy
    flag cleared, and leaves the asset list, the zoom memory, the selection,
    the viewer and the blob URLs as they were. *)
Theorem C8_cancelled_prompt_is_silent st err sched :
  err_name err = "AbortError" ->
  let st' := handleOpenFolder (Throw err) sched st in
  st' = setLoading false st /\
  alerts st' = alerts st /\
  consoleErrors st' = consoleErrors st /\
  loading st' = false /\
  images st' = images st /\
  zoomStates st' = zoomStates st /\
  selectedIndex st' = selectedIndex st /\
  transformRef st' = transformRef st /\
  revokedUrls st' = revokedUrls st.
Proof.
  intros Habort. cbv zeta. unfold handleOpenFolder.
  rewrite (catchBlock_abort _ _ Habort). unfold finallyBlock. simpl.
  repeat split; reflexivity.
Qed.

Lemma C8_witness :
  err_name {| err_name := "AbortError" |} = "AbortError" /\
  let st' := handleOpenFolder (Throw {| err_name := "AbortError" |}) [] (viewing 1 zoomed) in
  st' = setLoading false (viewing 1 zoomed) /\
  alerts st' = alerts (viewing 1 zoomed) /\
  consoleErrors st' = consoleErrors (viewing 1 zoomed) /\
  loading st' = false /\
  images st' = images (viewing 1 zoomed) /\
  zoomStates st' = zoomStates (viewing 1 zoomed) /\
  selectedIndex st' = selectedIndex (viewing 1 zoomed) /\
  transformRef st' = transformRef (viewing 1 zoomed) /\
  revokedUrls st' = revokedUrls (viewing 1 zoomed).
Proof.
  split; [reflexivity|].
  apply (C8_cancelled_prompt_is_silent (viewing 1 zoomed) {| err_name := "AbortError" |} []).
  reflexivity.
Defined.

Lemma C9_witness :
  scanDirectory sampleTree [] = Ok sampleFound /\
  NoDup [2; 0; 3; 1] /\
  (forall k, k ∈ [2; 0; 3; 1] -> k < length sampleFound) /\
  let st' := handleOpenFolder (Ok sampleTree) [2; 0; 3; 1] browsing in
  ((forall k, k < length sampleFound -> k ∈ [2; 0; 3; 1]) ->
   (forall item, item ∈ sampleFound -> readable item = true) ->
   length (images st') = length sampleFound /\
   loading st' = false /\
   forall i item, sampleFound !! i = Some item ->
     exists img, images st' !! i = Some img /\
                 img_name img = if_name item /\ img_handle img = if_handle item) /\
  ((exists k, k < length sampleFound /\ k ∉ [2; 0; 3; 1]) ->
   (forall k, k ∈ [2; 0; 3; 1] ->
              exists item, sampleFound !! k = Some item /\ readable item = true) ->
   images st' = [] /\ loading st' = true) /\
  ((exists k item, k ∈ [2; 0; 3; 1] /\ sampleFound !! k = Some item /\ readable item = false) ->
   images st' = [] /\ loading st' = false /\
   exists err, loadError (Ok sampleTree) [2; 0; 3; 1] (nextUrl browsing) = Some err).
Proof.
  assert (scanDirectory sampleTree [] = Ok sampleFound) as Hscan by (vm_compute; reflexivity).
  assert (NoDup [2; 0; 3; 1]) as Hnd by compute_done.
  assert (forall k, k ∈ [2; 0; 3; 1] -> k < length sampleFound) as Hrange.
  { intros k Hk. simpl.
    repeat (apply elem_of_cons in Hk as [->|Hk]; [lia|]). inversion Hk. }
  split; [exact Hscan|]. split; [exact Hnd|]. split; [exact Hrange|].
  exact (C9_materialized_list_keeps_scan_order browsing sampleTree sampleFound [2; 0; 3; 1]
           Hscan Hnd Hrange).
Defined.

Example load_out_of_order :
  map img_name (images (handleOpenFolder (Ok sampleTree) [2; 0; 3; 1] browsing))
  = ["a.png"; "b.jpg"; "d.tar.WebP"; "F.JPEG"] /\
  map img_url (images (handleOpenFolder (Ok sampleTree) [2; 0; 3; 1] browsing))
  = [4; 6; 3; 5].
Proof. vm_compute. split; reflexivity. Qed.


Example unreadable_file_clears_gallery :
  images (handleOpenFolder (Ok unreadableDir) [0; 1] browsing) = [] /\
  alerts (handleOpenFolder (Ok unreadableDir) [0; 1] browsing) = [alertText].
Proof. vm_compute. split; reflexivity. Qed.



(** ** Selection and reload *)

(** The render that follows line 21: the grid when nothing is selected, a
    TypeError as soon as an image is. *)
Lemma render_after_clear st :
  viewerSrc (beginLoad st)
  = match selectedIndex st with
    | None => Ok None
    | Some _ => Throw {| err_name := "TypeError" |}
    end.
Proof.
  unfold viewerSrc, imageAt. simpl. destruct (selectedIndex st) as [i|]; [|reflexivity].
  destruct (0 <=? i)%Z; reflexivity.
Qed.

(** No path of the load operation writes [selectedIndex]. *)
Lemma load_keeps_selection picker sched st :
  selectedIndex (handleOpenFolder picker sched st) = selectedIndex st.
Proof.
  unfold handleOpenFolder. destruct picker as [dirHandle|err].
  - cbv zeta. destruct (scanDirectory dirHandle []) as [imageFiles|err].
    + destruct (promiseAll imageFiles sched (nextUrl (beginLoad st))) as [p url].
      destruct (pa_state p); unfold finallyBlock; simpl;
        rewrite ?selectedIndex_catchBlock; reflexivity.
    + unfold finallyBlock. simpl. rewrite selectedIndex_catchBlock. reflexivity.
  - unfold finallyBlock. simpl. rewrite selectedIndex_catchBlock. reflexivity.
Qed.

Lemma images_step_ui ev st : is_ui_event ev -> images (step ev st) = images st.
Proof.
  intros Hui. destruct ev as [k| | | |key|t|picker sched]; simpl.
  - case_decide; [apply images_setSelectedIndex|reflexivity].
  - destruct (selectedIndex st); [|reflexivity].
    case_decide; [reflexivity|apply images_handlePrev].
  - destruct (selectedIndex st); [|reflexivity].
    case_decide; [reflexivity|apply images_handleNext].
  - destruct (selectedIndex st); [apply images_setSelectedIndex|reflexivity].
  - rewrite handleKeyDown_cases. destruct (selectedIndex st); [|reflexivity].
    repeat case_decide;
      [apply images_handleNext|apply images_handlePrev|apply images_setSelectedIndex|reflexivity].
  - destruct (transformRef st); reflexivity.
  - destruct Hui.
Qed.

Lemma nextIndex_in_range len prev i :
  (forall j, prev = Some j -> (0 <= j < len)%Z) ->
  nextIndex len prev = Some i -> (0 <= i < len)%Z.
Proof.
  intros Hprev. unfold nextIndex.
  destruct (Z.ltb_spec (toNumber prev + 1) len) as [Hlt|Hge].
  - intros [= <-]. destruct prev as [j|]; simpl in *; [specialize (Hprev j eq_refl)|]; lia.
  - intros ->. apply Hprev. reflexivity.
Qed.

Lemma prevIndex_in_range len prev i :
  (forall j, prev = Some j -> (0 <= j < len)%Z) ->
  prevIndex prev = Some i -> (0 <= i < len)%Z.
Proof.
  intros Hprev. unfold prevIndex.
  destruct (Z.geb_spec (toNumber prev - 1) 0) as [Hge|Hlt].
  - intros [= <-]. destruct prev as [j|]; simpl in *; [specialize (Hprev j eq_refl)|]; lia.
  - intros ->. apply Hprev. reflexivity.
Qed.

(** Opening a card, next, prev, close and pan/zoom keep the selection inside
    the asset list. *)
Lemma ui_step_preserves_range ev st :
  is_ui_event ev -> selection_in_range st -> selection_in_range (step ev st).
Proof.
  intros Hui Hinv i. rewrite (images_step_ui ev st Hui). unfold selection_in_range in Hinv.
  destruct ev as [k| | | |key|t|picker sched]; simpl.
  - case_decide; [|apply Hinv]. rewrite selectedIndex_setSelectedIndex. intros [= <-]. lia.
  - destruct (selectedIndex st) as [j|] eqn:Hj; [|rewrite Hj; discriminate].
    case_decide; [rewrite Hj; intros [= <-]; apply Hinv; reflexivity|].
    rewrite selectedIndex_handlePrev, Hj. apply prevIndex_in_range.
    intros ? [= <-]. apply Hinv. reflexivity.
  - destruct (selectedIndex st) as [j|] eqn:Hj; [|rewrite Hj; discriminate].
    case_decide; [rewrite Hj; intros [= <-]; apply Hinv; reflexivity|].
    rewrite selectedIndex_handleNext, Hj. apply nextIndex_in_range.
    intros ? [= <-]. apply Hinv. reflexivity.
  - destruct (selectedIndex st) as [j|] eqn:Hj; [|rewrite Hj; discriminate].
    rewrite selectedIndex_setSelectedIndex. discriminate.
  - rewrite handleKeyDown_cases.
    destruct (selectedIndex st) as [j|] eqn:Hj; [|rewrite Hj; discriminate].
    repeat case_decide.
    + rewrite selectedIndex_handleNext, Hj. apply nextIndex_in_range.
      intros ? [= <-]. apply Hinv. reflexivity.
    + rewrite selectedIndex_handlePrev, Hj. apply prevIndex_in_range.
      intros ? [= <-]. apply Hinv. reflexivity.
    + rewrite selectedIndex_setSelectedIndex. discriminate.
    + rewrite Hj. intros [= <-]. apply Hinv. reflexivity.
  - destruct (transformRef st); simpl; apply Hinv.
  - destruct Hui.
Qed.

(** A load started from the grid (nothing selected) keeps the invariant. *)
Lemma load_preserves_range_when_closed picker sched st :
  selectedIndex st = None ->
  selection_in_range (handleOpenFolder picker sched st).
Proof.
  intros Hnone i. rewrite load_keeps_selection, Hnone. discriminate.
Qed.

(** C5 at a failing input: the viewer is open at index 0 of three assets
    when a folder of four images is loaded.  The new list has its four
    entries, the three old URLs are revoked and the zoom memory is empty,
    but the selection is still index 0 instead of none; and as soon as the
    load has cleared the list, rendering the viewer throws. *)
Theorem C5_reload_keeps_selection :
  let st := viewing 0 zoomed in
  let st' := handleOpenFolder (Ok sampleTree) [0; 1; 2; 3] st in
  length (images st') = 4 /\
  revokedUrls st' = [0; 1; 2] /\
  zoomStates st' = ∅ /\
  selectedIndex st = Some 0%Z /\
  selectedIndex st' = Some 0%Z /\
  viewerSrc (beginLoad st) = Throw {| err_name := "TypeError" |}.
Proof. vm_compute. repeat split; reflexivity. Qed.

(** C6 at a failing input: load four images, open the last one, then load an
    empty folder.  Before the second load the selection is inside the list;
    after it the list is empty and index 3 is still selected, so the
    invariant is broken and rendering the viewer throws. *)
Theorem C6_reload_breaks_selection_range :
  let st := run [ClickOpenFolder (Ok sampleTree) [0; 1; 2; 3]; ClickCard 3] initialApp in
  let st' := step (ClickOpenFolder (Ok emptyDir) []) st in
  selection_in_range st /\
  selectedIndex st' = Some 3%Z /\
  images st' = [] /\
  ~ selection_in_range st' /\
  viewerSrc st' = Throw {| err_name := "TypeError" |}.
Proof.
  cbv zeta. split; [|split; [|split; [|split]]].
  - intros i Hi. vm_compute in Hi. injection Hi as <-.
    split; [vm_compute; discriminate|vm_compute; reflexivity].
  - vm_compute. reflexivity.
  - vm_compute. reflexivity.
  - intros Hinv. specialize (Hinv 3%Z). vm_compute in Hinv.
    destruct (Hinv eq_refl) as [_ Hlt]. discriminate Hlt.
  - vm_compute. reflexivity.
Qed.

(** * Further properties of the code *)

(** ** The scanner: errors and accumulation *)

Lemma faultsOf_unfold name values fault :
  faultsOf (DirectoryHandle name values fault)
  = mjoin (faultsOf <$> values) ++ option_list fault.
Proof.
  simpl. f_equal. induction values as [|e es IH]; [reflexivity|].
  rewrite fmap_cons. simpl. rewrite IH. reflexivity.
Qed.

Lemma scanLoop_faults fault values :
  Forall (fun e => isDirectory e = true ->
            forall acc, scanDirectory e acc
                        = match faultsOf e with
                          | [] => Ok (acc ++ imagesBelow e)
                          | err :: _ => Throw err
                          end) values ->
  forall acc,
    scanLoop fault values acc
    = match mjoin (faultsOf <$> values) ++ option_list fault with
      | [] => Ok (acc ++ (imageFileOf <$>
                            List.filter (fun f => isImageName (entry_name f))
                              (mjoin (filesOf <$> values))))
      | err :: _ => Throw err
      end.
Proof.
  induction 1 as [|e es He _ IH]; intros acc.
  - simpl. destruct fault; [reflexivity|]. rewrite app_nil_r. reflexivity.
  - rewrite !fmap_cons.
    change (mjoin (filesOf e :: (filesOf <$> es)))
      with (filesOf e ++ mjoin (filesOf <$> es)).
    change (mjoin (faultsOf e :: (faultsOf <$> es)))
      with (faultsOf e ++ mjoin (faultsOf <$> es)).
    rewrite List.filter_app, fmap_app.
    destruct e as [nm gf|nm vs flt]; cbn [scanLoop].
    + simpl filesOf. simpl List.filter. unfold isImageName at 1. simpl entry_name.
      simpl faultsOf. rewrite app_nil_l.
      destruct (ext_total nm) as [x ->].
      destruct (bool_decide (x ∈ allowedExt)); rewrite IH;
        destruct (mjoin (faultsOf <$> es) ++ option_list fault);
        rewrite <- ?app_assoc; reflexivity.
    + rewrite (He eq_refl acc).
      destruct (faultsOf (DirectoryHandle nm vs flt)) as [|err errs].
      * rewrite IH, app_nil_l.
        destruct (mjoin (faultsOf <$> es) ++ option_list fault);
          [|reflexivity].
        unfold imagesBelow. rewrite <- app_assoc. reflexivity.
      * reflexivity.
Qed.

Lemma scanDirectory_faults e :
  isDirectory e = true ->
  forall acc,
    scanDirectory e acc
    = match faultsOf e with
      | [] => Ok (acc ++ imagesBelow e)
      | err :: _ => Throw err
      end.
Proof.
  induction e as [nm gf|nm vs flt IH] using entry_ind; [discriminate|].
  intros _ acc. rewrite scanDirectory_unfold, faultsOf_unfold.
  unfold imagesBelow. rewrite filesOf_unfold. apply scanLoop_faults. exact IH.
Qed.

Example scan_twoFaults :
  scanDirectory twoFaults [] = Throw {| err_name := "NotFoundError" |}.
Proof. reflexivity. Qed.

(** X1: a scan either throws or returns, never both and never a part: it
    throws exactly the first error that a directory listing of the tree
    raises in walk order, and when no listing throws it returns the array it
    was given with the images of the tree appended.  The string operations
    of the extension test never throw. *)
Theorem X1_scan_throws_first_fault_or_appends name values fault acc :
  scanDirectory (DirectoryHandle name values fault) acc
  = match faultsOf (DirectoryHandle name values fault) with
    | [] =>
        Ok (acc ++ (imageFileOf <$>
                      List.filter (fun f => isImageName (entry_name f))
                        (filesOf (DirectoryHandle name values fault))))
    | err :: _ => Throw err
    end.
Proof.
  rewrite scanDirectory_unfold, faultsOf_unfold, filesOf_unfold.
  apply scanLoop_faults. rewrite Forall_forall.
  intros e _ Hdir acc'. apply scanDirectory_faults. exact Hdir.
Qed.

(** ** The extension test ignores case *)

Lemma lowerChar_dot c : Ascii.eqb (lowerChar c) "." = Ascii.eqb c ".".
Proof. destruct c as [[] [] [] [] [] [] [] []]; reflexivity. Qed.

Lemma lowerChar_idem c : lowerChar (lowerChar c) = lowerChar c.
Proof. destruct c as [[] [] [] [] [] [] [] []]; reflexivity. Qed.

Lemma toLowerCase_idem s : toLowerCase (toLowerCase s) = toLowerCase s.
Proof.
  induction s as [|c s IH]; [reflexivity|]. simpl. rewrite lowerChar_idem, IH. reflexivity.
Qed.

Lemma split_toLowerCase s :
  split "." (toLowerCase s) = toLowerCase <$> split "." s.
Proof.
  induction s as [|c s IH]; [reflexivity|].
  simpl. rewrite lowerChar_dot, IH.
  destruct (Ascii.eqb c "."); [reflexivity|].
  pose proof (split_nonempty "." s) as Hne.
  destruct (split "." s); [congruence|reflexivity].
Qed.

Lemma ext_toLowerCase name : ext (toLowerCase name) = ext name.
Proof.
  unfold ext, pop. rewrite split_toLowerCase, fmap_last.
  destruct (last (split "." name)); [|reflexivity].
  simpl. rewrite toLowerCase_idem. reflexivity.
Qed.

(** X2: the extension test looks at the name only up to the case of its
    ASCII letters: two names with the same lower-case form are both kept or
    both left out, whatever the case of the name before the last dot. *)
Theorem X2_extension_test_ignores_case n1 n2 :
  toLowerCase n1 = toLowerCase n2 ->
  ext n1 = ext n2 /\ isImageName n1 = isImageName n2.
Proof.
  intros Heq.
  assert (ext n1 = ext n2) as Hext
    by (rewrite <- (ext_toLowerCase n1), <- (ext_toLowerCase n2), Heq; reflexivity).
  split; [exact Hext|]. unfold isImageName. rewrite Hext. reflexivity.
Qed.

Lemma X2_witness :
  toLowerCase "Holiday.Photo.JpEg" = toLowerCase "HOLIDAY.photo.jpeg" /\
  ext "Holiday.Photo.JpEg" = ext "HOLIDAY.photo.jpeg" /\
  isImageName "Holiday.Photo.JpEg" = isImageName "HOLIDAY.photo.jpeg".
Proof.
  split; [reflexivity|].
  apply (X2_extension_test_ignores_case "Holiday.Photo.JpEg" "HOLIDAY.photo.jpeg").
  reflexivity.
Defined.

(** ** Navigation: repetition, inverses and the ends of the list *)

Lemma iter_handleNext st i n :
  selectedIndex st = Some i ->
  (0 <= i < Z.of_nat (length (images st)))%Z ->
  selectedIndex (Nat.iter n handleNext st)
  = Some (Z.min (i + Z.of_nat n) (Z.of_nat (length (images st)) - 1)) /\
  images (Nat.iter n handleNext st) = images st.
Proof.
  intros Hsel Hrange. induction n as [|n [IHs IHi]].
  - simpl. split; [|reflexivity]. rewrite Hsel. f_equal. lia.
  - change (Nat.iter (S n) handleNext st) with (handleNext (Nat.iter n handleNext st)).
    rewrite selectedIndex_handleNext, images_handleNext, IHs, IHi.
    split; [|reflexivity].
    rewrite nextIndex_clamped by lia. f_equal. lia.
Qed.

Lemma iter_handlePrev st i n :
  selectedIndex st = Some i ->
  (0 <= i)%Z ->
  selectedIndex (Nat.iter n handlePrev st) = Some (Z.max (i - Z.of_nat n) 0).
Proof.
  intros Hsel Hi. induction n as [|n IH].
  - simpl. rewrite Hsel. f_equal. lia.
  - change (Nat.iter (S n) handlePrev st) with (handlePrev (Nat.iter n handlePrev st)).
    rewrite selectedIndex_handlePrev, IH.
    rewrite prevIndex_clamped by lia. f_equal. lia.
Qed.

(** X3: with the viewer at index i of L assets, n presses of next select
    min(i+n, L-1) and n presses of prev select max(i-n, 0); the asset list is
    not changed on the way. *)
Theorem X3_repeated_next_prev st i n :
  selectedIndex st = Some i ->
  (0 <= i < Z.of_nat (length (images st)))%Z ->
  selectedIndex (Nat.iter n handleNext st)
  = Some (Z.min (i + Z.of_nat n) (Z.of_nat (length (images st)) - 1)) /\
  selectedIndex (Nat.iter n handlePrev st) = Some (Z.max (i - Z.of_nat n) 0) /\
  images (Nat.iter n handleNext st) = images st.
Proof.
  intros Hsel Hrange.
  destruct (iter_handleNext st i n Hsel Hrange) as [Hn Hi].
  split; [exact Hn|]. split; [|exact Hi].
  apply iter_handlePrev; [exact Hsel|lia].
Qed.

Lemma X3_witness :
  selectedIndex (viewing 1 zoomed) = Some 1%Z /\
  (0 <= 1 < Z.of_nat (length (images (viewing 1 zoomed))))%Z /\
  selectedIndex (Nat.iter 5 handleNext (viewing 1 zoomed))
  = Some (Z.min (1 + Z.of_nat 5) (Z.of_nat (length (images (viewing 1 zoomed))) - 1)) /\
  selectedIndex (Nat.iter 5 handlePrev (viewing 1 zoomed))
  = Some (Z.max (1 - Z.of_nat 5) 0) /\
  images (Nat.iter 5 handleNext (viewing 1 zoomed)) = images (viewing 1 zoomed).
Proof.
  split; [reflexivity|]. split; [simpl; lia|].
  apply (X3_repeated_next_prev (viewing 1 zoomed) 1 5); [reflexivity|simpl; lia].
Defined.

(** X4: away from the ends next and prev undo each other on the selection:
    prev after next returns to i when i is not the last index, and next after
    prev returns to i when i is not the first. *)
Theorem X4_next_prev_inverse st i :
  selectedIndex st = Some i ->
  (0 <= i < Z.of_nat (length (images st)))%Z ->
  ((i + 1 < Z.of_nat (length (images st)))%Z ->
   selectedIndex (handlePrev (handleNext st)) = Some i) /\
  ((0 < i)%Z ->
   selectedIndex (handleNext (handlePrev st)) = Some i).
Proof.
  intros Hsel Hrange. split; intros Hi.
  - rewrite selectedIndex_handlePrev, selectedIndex_handleNext, Hsel.
    rewrite nextIndex_clamped by lia. rewrite prevIndex_clamped by lia. f_equal. lia.
  - rewrite selectedIndex_handleNext, images_handlePrev, selectedIndex_handlePrev, Hsel.
    rewrite prevIndex_clamped by lia. rewrite nextIndex_clamped by lia. f_equal. lia.
Qed.

Lemma X4_witness :
  selectedIndex (viewing 1 zoomed) = Some 1%Z /\
  (0 <= 1 < Z.of_nat (length (images (viewing 1 zoomed))))%Z /\
  (1 + 1 < Z.of_nat (length (images (viewing 1 zoomed))))%Z /\
  (0 < 1)%Z /\
  selectedIndex (handlePrev (handleNext (viewing 1 zoomed))) = Some 1%Z /\
  selectedIndex (handleNext (handlePrev (viewing 1 zoomed))) = Some 1%Z.
Proof.
  assert (0 <= 1 < Z.of_nat (length (images (viewing 1 zoomed))))%Z as Hrange
    by (simpl; lia).
  assert (1 + 1 < Z.of_nat (length (images (viewing 1 zoomed))))%Z as Hnext
    by (simpl; lia).
  assert (0 < 1)%Z as Hprev by lia.
  split; [reflexivity|]. split; [exact Hrange|]. split; [exact Hnext|].
  split; [exact Hprev|].
  destruct (X4_next_prev_inverse (viewing 1 zoomed) 1 eq_refl Hrange) as [Hpn Hnp].
  split; [apply Hpn, Hnext|apply Hnp, Hprev].
Defined.

Lemma setSelectedIndex_same st : setSelectedIndex (selectedIndex st) st = st.
Proof. unfold setSelectedIndex. destruct (decide _); [reflexivity|congruence]. Qed.

Lemma handleNext_at_last st i :
  selectedIndex st = Some i ->
  i = (Z.of_nat (length (images st)) - 1)%Z ->
  handleNext st = saveCurrentState st.
Proof.
  intros Hsel Hi. unfold handleNext. cbv zeta.
  rewrite images_saveCurrentState, selectedIndex_saveCurrentState, Hsel.
  assert (nextIndex (Z.of_nat (length (images st))) (Some i) = Some i) as ->.
  { unfold nextIndex, toNumber.
    destruct (Z.ltb_spec (i + 1) (Z.of_nat (length (images st)))); [lia|reflexivity]. }
  rewrite <- Hsel, <- (selectedIndex_saveCurrentState st). apply setSelectedIndex_same.
Qed.

Lemma handlePrev_at_first st :
  selectedIndex st = Some 0%Z -> handlePrev st = saveCurrentState st.
Proof.
  intros Hsel. unfold handlePrev. cbv zeta.
  rewrite selectedIndex_saveCurrentState, Hsel.
  change (prevIndex (Some 0%Z)) with (Some 0%Z).
  rewrite <- Hsel, <- (selectedIndex_saveCurrentState st). apply setSelectedIndex_same.
Qed.

(** X5: at an end of the list the arrow key and the button differ.  The
    right arrow at the last index keeps the selection and the mounted viewer
    but still records the viewer's current pan/zoom parameters for that
    index; the next button is disabled there and changes nothing.  The left
    arrow and the prev button behave alike at index 0. *)
Theorem X5_arrow_key_at_an_end_saves_zoom st i p :
  selectedIndex st = Some i ->
  transformRef st = Some p ->
  (i = (Z.of_nat (length (images st)) - 1)%Z ->
   step (KeyDown "ArrowRight") st = with_zoomStates (<[i := p]> (zoomStates st)) st /\
   step ClickNext st = st) /\
  (i = 0%Z ->
   step (KeyDown "ArrowLeft") st = with_zoomStates (<[i := p]> (zoomStates st)) st /\
   step ClickPrev st = st).
Proof.
  intros Hsel Href.
  assert (saveCurrentState st = with_zoomStates (<[i := p]> (zoomStates st)) st) as Hsave.
  { unfold saveCurrentState. rewrite Href, Hsel, transform_eta. reflexivity. }
  split; intros Hi.
  - split.
    + simpl. rewrite handleKeyDown_cases, Hsel. simpl.
      rewrite (handleNext_at_last st i Hsel Hi). exact Hsave.
    + simpl. rewrite Hsel. case_decide; [reflexivity|contradiction].
  - subst i. split.
    + simpl. rewrite handleKeyDown_cases, Hsel. simpl.
      rewrite (handlePrev_at_first st Hsel). exact Hsave.
    + simpl. rewrite Hsel. reflexivity.
Qed.

Lemma X5_witness :
  selectedIndex (viewingOnly zoomed) = Some 0%Z /\
  transformRef (viewingOnly zoomed) = Some zoomed /\
  0%Z = (Z.of_nat (length (images (viewingOnly zoomed))) - 1)%Z /\
  (step (KeyDown "ArrowRight") (viewingOnly zoomed)
   = with_zoomStates (<[0%Z := zoomed]> (zoomStates (viewingOnly zoomed))) (viewingOnly zoomed) /\
   step ClickNext (viewingOnly zoomed) = viewingOnly zoomed) /\
  (step (KeyDown "ArrowLeft") (viewingOnly zoomed)
   = with_zoomStates (<[0%Z := zoomed]> (zoomStates (viewingOnly zoomed))) (viewingOnly zoomed) /\
   step ClickPrev (viewingOnly zoomed) = viewingOnly zoomed).
Proof.
  split; [reflexivity|]. split; [reflexivity|]. split; [reflexivity|].
  destruct (X5_arrow_key_at_an_end_saves_zoom (viewingOnly zoomed) 0 zoomed eq_refl eq_refl)
    as [Hright Hleft].
  split; [apply Hright; reflexivity|apply Hleft; reflexivity].
Defined.

(** X6: the viewer buttons are disabled exactly when their handler would
    leave the selection where it is: next is disabled if and only if next
    keeps index i, and prev is disabled if and only if prev keeps index i. *)
Theorem X6_button_disabled_iff_no_move st i :
  selectedIndex st = Some i ->
  (0 <= i < Z.of_nat (length (images st)))%Z ->
  (nextDisabled st = true <-> selectedIndex (handleNext st) = Some i) /\
  (prevDisabled st = true <-> selectedIndex (handlePrev st) = Some i).
Proof.
  intros Hsel Hrange. unfold nextDisabled, prevDisabled.
  rewrite selectedIndex_handleNext, selectedIndex_handlePrev, Hsel.
  rewrite nextIndex_clamped by lia. rewrite prevIndex_clamped by lia.
  rewrite !bool_decide_eq_true. split; split.
  - intros [= ->]. f_equal. lia.
  - intros [= Hmin]. f_equal. lia.
  - intros [= ->]. reflexivity.
  - intros [= Hmax]. f_equal. lia.
Qed.

Lemma X6_witness :
  selectedIndex (viewing 2 zoomed) = Some 2%Z /\
  (0 <= 2 < Z.of_nat (length (images (viewing 2 zoomed))))%Z /\
  (nextDisabled (viewing 2 zoomed) = true <->
   selectedIndex (handleNext (viewing 2 zoomed)) = Some 2%Z) /\
  (prevDisabled (viewing 2 zoomed) = true <->
   selectedIndex (handlePrev (viewing 2 zoomed)) = Some 2%Z).
Proof.
  split; [reflexivity|]. split; [simpl; lia|].
  apply (X6_button_disabled_iff_no_move (viewing 2 zoomed) 2); [reflexivity|simpl; lia].
Defined.

(** ** What the viewer events leave alone *)

Lemma sameGallery_refl st : sameGallery st st.
Proof. repeat split. Qed.

Lemma sameGallery_trans st1 st2 st3 :
  sameGallery st1 st2 -> sameGallery st2 st3 -> sameGallery st1 st3.
Proof.
  unfold sameGallery. intros (H1 & H2 & H3 & H4 & H5 & H6) (K1 & K2 & K3 & K4 & K5 & K6).
  repeat split; congruence.
Qed.

Lemma sameGallery_setSelectedIndex v st : sameGallery st (setSelectedIndex v st).
Proof.
  unfold setSelectedIndex. destruct (decide _); [apply sameGallery_refl|].
  destruct v; repeat split.
Qed.

Lemma sameGallery_saveCurrentState st : sameGallery st (saveCurrentState st).
Proof.
  unfold saveCurrentState. destruct (transformRef st); [|apply sameGallery_refl].
  destruct (selectedIndex st); [repeat split|apply sameGallery_refl].
Qed.

Lemma sameGallery_handleNext st : sameGallery st (handleNext st).
Proof.
  unfold handleNext. cbv zeta.
  eapply sameGallery_trans; [apply sameGallery_saveCurrentState|].
  apply sameGallery_setSelectedIndex.
Qed.

Lemma sameGallery_handlePrev st : sameGallery st (handlePrev st).
Proof.
  unfold handlePrev. cbv zeta.
  eapply sameGallery_trans; [apply sameGallery_saveCurrentState|].
  apply sameGallery_setSelectedIndex.
Qed.

Lemma sameGallery_step ev st : is_ui_event ev -> sameGallery st (step ev st).
Proof.
  intros Hui. destruct ev as [k| | | |key|t|picker sched]; simpl.
  - case_decide; [apply sameGallery_setSelectedIndex|apply sameGallery_refl].
  - destruct (selectedIndex st); [|apply sameGallery_refl].
    case_decide; [apply sameGallery_refl|apply sameGallery_handlePrev].
  - destruct (selectedIndex st); [|apply sameGallery_refl].
    case_decide; [apply sameGallery_refl|apply sameGallery_handleNext].
  - destruct (selectedIndex st); [apply sameGallery_setSelectedIndex|apply sameGallery_refl].
  - rewrite handleKeyDown_cases. destruct (selectedIndex st); [|apply sameGallery_refl].
    repeat case_decide;
      [apply sameGallery_handleNext|apply sameGallery_handlePrev
      |apply sameGallery_setSelectedIndex|apply sameGallery_refl].
  - destruct (transformRef st); [repeat split|apply sameGallery_refl].
  - destruct Hui.
Qed.

(** X7: opening a card, next, prev, close, any key and pan/zoom never touch
    the asset list, the busy flag, the notices or the blob URLs: only a
    folder load does.  Of these events only next and prev (button or arrow
    key) write the zoom memory. *)
Theorem X7_viewer_events_leave_gallery_alone ev st :
  is_ui_event ev ->
  sameGallery st (step ev st) /\
  (~ is_next_or_prev ev -> zoomStates (step ev st) = zoomStates st).
Proof.
  intros Hui. split; [apply sameGallery_step, Hui|].
  intros Hnot. destruct ev as [k| | | |key|t|picker sched]; simpl.
  - case_decide; [apply zoomStates_setSelectedIndex|reflexivity].
  - exfalso. apply Hnot. right. left. reflexivity.
  - exfalso. apply Hnot. left. reflexivity.
  - destruct (selectedIndex st); [apply zoomStates_setSelectedIndex|reflexivity].
  - rewrite handleKeyDown_cases. destruct (selectedIndex st); [|reflexivity].
    repeat case_decide; subst.
    + exfalso. apply Hnot. right. right. left. reflexivity.
    + exfalso. apply Hnot. right. right. right. reflexivity.
    + apply zoomStates_setSelectedIndex.
    + reflexivity.
  - destruct (transformRef st); reflexivity.
  - destruct Hui.
Qed.

Lemma X7_witness :
  is_ui_event (KeyDown "Escape") /\
  sameGallery (viewing 1 zoomed) (step (KeyDown "Escape") (viewing 1 zoomed)) /\
  (~ is_next_or_prev (KeyDown "Escape") ->
   zoomStates (step (KeyDown "Escape") (viewing 1 zoomed)) = zoomStates (viewing 1 zoomed)).
Proof.
  split; [exact I|].
  apply (X7_viewer_events_leave_gallery_alone (KeyDown "Escape") (viewing 1 zoomed)).
  exact I.
Defined.

(** ** The load operation: notices, busy flag and publication *)

(** X8: a load shows at most one notice.  It shows the notice and logs the
    error exactly when an error reaches the catch block under a name other
    than AbortError, wherever it was raised (prompt, directory listing or
    file read); a load that succeeds or is still waiting shows nothing. *)
Theorem X8_one_notice_unless_abort picker sched st :
  alerts (handleOpenFolder picker sched st)
  = alerts st ++ match loadError picker sched (nextUrl st) with
                 | Some e => if decide (err_name e <> "AbortError") then [alertText] else []
                 | None => []
                 end /\
  consoleErrors (handleOpenFolder picker sched st)
  = consoleErrors st ++ match loadError picker sched (nextUrl st) with
                        | Some e => if decide (err_name e <> "AbortError") then [e] else []
                        | None => []
                        end.
Proof.
  unfold handleOpenFolder, loadError. destruct picker as [dirHandle|err].
  - cbv zeta. change (nextUrl (beginLoad st)) with (nextUrl st).
    destruct (scanDirectory dirHandle []) as [imageFiles|err].
    + destruct (promiseAll imageFiles sched (nextUrl st)) as [p url]. simpl fst.
      destruct (pa_state p) as [loaded|err|]; unfold finallyBlock, catchBlock;
        try case_decide; simpl; rewrite ?app_nil_r; split; reflexivity.
    + unfold finallyBlock, catchBlock. case_decide; simpl; rewrite ?app_nil_r;
        split; reflexivity.
  - unfold finallyBlock, catchBlock. case_decide; simpl; rewrite ?app_nil_r;
      split; reflexivity.
Qed.

(** X9: an error named AbortError that is raised after the directory was
    chosen (by a listing or a file read) is swallowed like a cancelled
    prompt, with no notice and no log entry, but the gallery is no longer
    what it was: the asset list and the zoom memory are empty and the URLs of
    the previous list are revoked. *)
Theorem X9_abort_after_prompt_clears_silently st dirHandle sched e :
  loadError (Ok dirHandle) sched (nextUrl st) = Some e ->
  err_name e = "AbortError" ->
  let st' := handleOpenFolder (Ok dirHandle) sched st in
  alerts st' = alerts st /\
  consoleErrors st' = consoleErrors st /\
  loading st' = false /\
  images st' = [] /\
  zoomStates st' = ∅ /\
  revokedUrls st' = revokedUrls st ++ map img_url (images st).
Proof.
  intros Herr Hname. cbv zeta. unfold handleOpenFolder, loadError in *.
  cbv zeta. change (nextUrl (beginLoad st)) with (nextUrl st).
  destruct (scanDirectory dirHandle []) as [imageFiles|err].
  - destruct (promiseAll imageFiles sched (nextUrl st)) as [p url]. simpl in Herr.
    destruct (pa_state p) as [loaded|err|]; try discriminate.
    injection Herr as ->. rewrite (catchBlock_abort _ _ Hname).
    unfold finallyBlock. simpl. repeat split; reflexivity.
  - injection Herr as ->. rewrite (catchBlock_abort _ _ Hname).
    unfold finallyBlock. simpl. repeat split; reflexivity.
Qed.

Lemma X9_witness :
  let e := {| err_name := "AbortError" |} in
  let st' := handleOpenFolder (Ok abortedDir) [] browsing in
  loadError (Ok abortedDir) [] (nextUrl browsing) = Some e /\
  err_name e = "AbortError" /\
  alerts st' = alerts browsing /\
  consoleErrors st' = consoleErrors browsing /\
  loading st' = false /\
  images st' = [] /\
  zoomStates st' = ∅ /\
  revokedUrls st' = revokedUrls browsing ++ map img_url (images browsing).
Proof.
  intros e st'.
  assert (loadError (Ok abortedDir) [] (nextUrl browsing) = Some e) as Herr
    by (vm_compute; reflexivity).
  split; [exact Herr|]. split; [reflexivity|].
  exact (X9_abort_after_prompt_clears_silently browsing abortedDir [] e Herr eq_refl).
Defined.

Lemma missing_position (sched : list nat) n :
  length sched < n -> exists k, k < n /\ k ∉ sched.
Proof.
  intros Hlt.
  destruct (decide (Forall (fun k => k ∈ sched) (seq 0 n))) as [Hall|Hnot].
  - exfalso. rewrite Forall_forall in Hall.
    assert (n <= length sched); [|lia].
    rewrite <- (length_seq n 0). apply submseteq_length.
    apply NoDup_submseteq; [apply NoDup_seq|exact Hall].
  - apply not_Forall_Exists in Hnot; [|intros k; apply _].
    apply Exists_exists in Hnot as [k [Hk Hnk]].
    apply elem_of_seq in Hk. exists k. split; [lia|exact Hnk].
Qed.

Lemma scheduled_readable_or_not (items : list ImageFile) (sched : list nat) :
  (forall k, k ∈ sched -> k < length items) ->
  (exists k item, k ∈ sched /\ items !! k = Some item /\ readable item = false) \/
  (forall k, k ∈ sched -> exists item, items !! k = Some item /\ readable item = true).
Proof.
  intros Hrange.
  destruct (decide (Exists (fun k => creates items k = false) sched)) as [Hex|Hnot].
  - left. apply Exists_exists in Hex as [k [Hk Hc]].
    destruct (lookup_lt_is_Some_2 items k (Hrange k Hk)) as [item Hitem].
    exists k, item. unfold creates in Hc. rewrite Hitem in Hc. auto.
  - right. apply not_Exists_Forall in Hnot; [|intros k; apply _].
    rewrite Forall_forall in Hnot. intros k Hk.
    destruct (lookup_lt_is_Some_2 items k (Hrange k Hk)) as [item Hitem].
    exists item. split; [exact Hitem|].
    specialize (Hnot k Hk). simpl in Hnot. unfold creates in Hnot.
    rewrite Hitem in Hnot. destruct (readable item); congruence.
Qed.

(** X10: once the scan has returned N entries, whatever the order in which
    the file reads settle and whether or not they all do, the asset list a
    load leaves is either empty or has exactly N entries, never a part of
    them; and when every read has settled the busy flag is cleared. *)
Theorem X10_load_publishes_all_or_nothing st dirHandle imageFiles sched :
  scanDirectory dirHandle [] = Ok imageFiles ->
  NoDup sched ->
  (forall k, k ∈ sched -> k < length imageFiles) ->
  let st' := handleOpenFolder (Ok dirHandle) sched st in
  (images st' = [] \/ length (images st') = length imageFiles) /\
  ((forall k, k < length imageFiles -> k ∈ sched) -> loading st' = false).
Proof.
  intros Hscan Hnd Hrange. cbv zeta.
  rewrite (handleOpenFolder_scanned _ _ _ _ Hscan). cbv zeta.
  destruct (scheduled_readable_or_not imageFiles sched Hrange) as [Hbad|Hread].
  - destruct (promiseAll_rejected imageFiles sched (nextUrl st) Hnd Hrange Hbad) as [e He].
    rewrite He. split; [left|intros _; reflexivity].
    unfold finallyBlock. simpl. apply images_catchBlock.
  - destruct (Nat.lt_ge_cases (length sched) (length imageFiles)) as [Hlt|Hge].
    + pose proof (missing_position sched _ Hlt) as Hmissing.
      rewrite (promiseAll_pending imageFiles sched (nextUrl st) Hnd Hread Hmissing).
      split; [left; reflexivity|].
      intros Hall. destruct Hmissing as [k [Hk Hnk]]. destruct (Hnk (Hall k Hk)).
    + pose proof (nodup_range_full sched _ Hnd Hrange Hge) as Hall.
      destruct (promiseAll_fulfilled imageFiles sched (nextUrl st) Hnd)
        as [loaded [Hst [Hlen _]]].
      * intros k. split; [apply Hrange|apply Hall].
      * intros item Hitem. apply list_elem_of_lookup in Hitem as [k Hk].
        destruct (Hread k (Hall k (lookup_lt_Some _ _ _ Hk))) as [item' [Hk' Hr]].
        congruence.
      * rewrite Hst. split; [right; exact Hlen|intros _; reflexivity].
Qed.

Lemma X10_witness :
  scanDirectory unreadableDir []
  = Ok [imageFileOf (FileHandle "a.png" (Ok 1));
        imageFileOf (FileHandle "b.png" (Throw {| err_name := "NotReadableError" |}))] /\
  NoDup [1; 0] /\
  (forall k, k ∈ [1; 0] -> k < 2) /\
  let st' := handleOpenFolder (Ok unreadableDir) [1; 0] browsing in
  (images st' = [] \/ length (images st') = 2) /\
  ((forall k, k < 2 -> k ∈ [1; 0]) -> loading st' = false).
Proof.
  assert (scanDirectory unreadableDir []
          = Ok [imageFileOf (FileHandle "a.png" (Ok 1));
                imageFileOf (FileHandle "b.png" (Throw {| err_name := "NotReadableError" |}))])
    as Hscan by reflexivity.
  assert (NoDup [1; 0]) as Hnd by compute_done.
  assert (forall k, k ∈ [1; 0] -> k < 2) as Hrange.
  { intros k Hk. repeat (apply elem_of_cons in Hk as [->|Hk]; [lia|]). inversion Hk. }
  split; [exact Hscan|]. split; [exact Hnd|]. split; [exact Hrange|].
  exact (X10_load_publishes_all_or_nothing browsing unreadableDir _ [1; 0] Hscan Hnd Hrange).
Defined.

(** ** Blob URLs *)

Lemma materialize_Ok item url img :
  materialize item url = Ok img ->
  readable item = true /\ img_url img = url /\ img_name img = if_name item.
Proof.
  unfold materialize, readable.
  destruct (if_handle item) as [nm [file|e]|nm vs flt]; try discriminate.
  intros [= <-]. auto.
Qed.

Lemma settleOne_nextUrl items k ps :
  snd (settleOne items k ps) = snd ps + (if creates items k then 1 else 0).
Proof.
  unfold settleOne, creates. destruct (items !! k) as [item|]; [|simpl; lia].
  destruct (materialize item (snd ps)) as [img|e] eqn:Hm.
  - apply materialize_Ok in Hm as [-> _]. simpl. lia.
  - destruct (readable item) eqn:Hr; [|simpl; lia].
    destruct (materialize_readable item (snd ps) Hr) as [img [Hm' _]]. congruence.
Qed.

Lemma settleAll_nextUrl items sched :
  forall ps, snd (settleAll items sched ps) = snd ps + createdCount items sched.
Proof.
  unfold createdCount. induction sched as [|k sched IH]; intros ps.
  - simpl. lia.
  - change (settleAll items (k :: sched) ps)
      with (settleAll items sched (settleOne items k ps)).
    rewrite IH, settleOne_nextUrl. simpl List.filter.
    destruct (creates items k); simpl; lia.
Qed.

Lemma urlsOf_app l1 l2 : urlsOf (l1 ++ l2) = urlsOf l1 ++ urlsOf l2.
Proof. unfold urlsOf. rewrite omap_app, fmap_app. reflexivity. Qed.

Lemma urlsOf_replicate_None n : urlsOf (replicate n None) = [].
Proof. induction n as [|n IH]; [reflexivity|exact IH]. Qed.

Lemma urlsOf_insert values k img :
  NoDup (urlsOf values) ->
  img_url img ∉ urlsOf values ->
  NoDup (urlsOf (<[k := Some img]> values)) /\
  forall u, u ∈ urlsOf (<[k := Some img]> values) -> u = img_url img \/ u ∈ urlsOf values.
Proof.
  intros Hnd Hfresh.
  destruct (Nat.lt_ge_cases k (length values)) as [Hlt|Hge].
  - destruct (lookup_lt_is_Some_2 values k Hlt) as [x Hx].
    assert (urlsOf values
            = urlsOf (take k values) ++ urlsOf [x] ++ urlsOf (drop (S k) values)) as Hv.
    { rewrite <- !urlsOf_app. f_equal. symmetry. apply (take_drop_middle values k x Hx). }
    rewrite Hv in Hnd, Hfresh |- *. clear Hv.
    rewrite insert_take_drop by exact Hlt.
    change (Some img :: drop (S k) values) with ([Some img] ++ drop (S k) values).
    rewrite !urlsOf_app.
    change (urlsOf [Some img]) with [img_url img].
    set (U1 := urlsOf (take k values)) in *.
    set (U2 := urlsOf (drop (S k) values)) in *.
    set (X := urlsOf [x]) in *.
    apply NoDup_app in Hnd as (HU1 & Hdisj & HXU2).
    apply NoDup_app in HXU2 as (_ & _ & HU2).
    split.
    + apply NoDup_app. split; [exact HU1|]. split.
      * intros u Hu Hin. apply elem_of_app in Hin as [Hin|Hin].
        -- apply list_elem_of_singleton in Hin as ->. apply Hfresh.
           apply elem_of_app. left. exact Hu.
        -- apply (Hdisj u Hu). apply elem_of_app. right. exact Hin.
      * apply NoDup_app. split; [apply NoDup_singleton|]. split; [|exact HU2].
        intros u Hu Hin. apply list_elem_of_singleton in Hu as ->. apply Hfresh.
        apply elem_of_app. right. apply elem_of_app. right. exact Hin.
    + intros u Hu. apply elem_of_app in Hu as [Hu|Hu].
      * right. apply elem_of_app. left. exact Hu.
      * apply elem_of_app in Hu as [Hu|Hu].
        -- left. apply list_elem_of_singleton in Hu. exact Hu.
        -- right. apply elem_of_app. right. apply elem_of_app. right. exact Hu.
  - rewrite list_insert_ge by exact Hge. split; [exact Hnd|auto].
Qed.

Lemma urlInv_start n url0 : urlInv url0 (promiseAllStart n, url0).
Proof.
  unfold urlInv. simpl. rewrite urlsOf_replicate_None.
  split; [lia|]. split; [constructor|]. split; [intros u Hu; inversion Hu|].
  intros loaded Hl. destruct n; [|discriminate]. injection Hl as <-.
  split; [constructor|intros u Hu; inversion Hu].
Qed.

Lemma urlInv_settleOne items k url0 ps :
  urlInv url0 ps -> urlInv url0 (settleOne items k ps).
Proof.
  intros (Hle & Hnd & Hin & Hres). unfold settleOne.
  destruct (items !! k) as [item|]; [|exact (conj Hle (conj Hnd (conj Hin Hres)))].
  destruct (materialize item (snd ps)) as [img|e] eqn:Hm.
  - apply materialize_Ok in Hm as (_ & Hurl & _).
    assert (img_url img ∉ urlsOf (pa_values (fst ps))) as Hfresh
      by (intros Hu; specialize (Hin _ Hu); lia).
    destruct (urlsOf_insert (pa_values (fst ps)) k img Hnd Hfresh) as [Hnd' Hin'].
    assert (forall u, u ∈ urlsOf (<[k:=Some img]> (pa_values (fst ps))) ->
                      url0 <= u < S (snd ps)) as Hbound.
    { intros u Hu. destruct (Hin' u Hu) as [->|Hold]; [lia|].
      specialize (Hin u Hold). lia. }
    unfold urlInv. simpl. split; [lia|]. split; [exact Hnd'|]. split; [exact Hbound|].
    intros loaded Hl. destruct (pa_state (fst ps)) as [old|e|] eqn:Hst.
    + injection Hl as <-. destruct (Hres old eq_refl) as [Hn Hb].
      split; [exact Hn|]. intros u Hu. specialize (Hb u Hu). lia.
    + discriminate.
    + destruct (pred (pa_remaining (fst ps)) =? 0)%nat; [|discriminate].
      injection Hl as <-. split; [exact Hnd'|exact Hbound].
  - unfold urlInv. simpl. split; [exact Hle|]. split; [exact Hnd|]. split; [exact Hin|].
    intros loaded Hl. apply Hres. destruct (pa_state (fst ps)); congruence.
Qed.

Lemma urlInv_settleAll items sched url0 :
  forall ps, urlInv url0 ps -> urlInv url0 (settleAll items sched ps).
Proof.
  induction sched as [|k sched IH]; intros ps Hinv; [exact Hinv|].
  change (settleAll items (k :: sched) ps)
    with (settleAll items sched (settleOne items k ps)).
  apply IH, urlInv_settleOne, Hinv.
Qed.

Lemma promiseAll_urls items sched url0 :
  urlInv url0 (promiseAll items sched url0).
Proof. unfold promiseAll. apply urlInv_settleAll, urlInv_start. Qed.

Lemma map_fmap {A B} (f : A -> B) (l : list A) : map f l = f <$> l.
Proof. reflexivity. Qed.

Lemma urls_wf_same st st' : sameGallery st st' -> urls_wf st -> urls_wf st'.
Proof.
  intros (Hi & _ & _ & _ & Hr & Hn). unfold urls_wf. rewrite Hi, Hr, Hn. auto.
Qed.

Lemma urls_wf_cleared st url :
  urls_wf st -> nextUrl st <= url ->
  NoDup ((revokedUrls st ++ (img_url <$> images st)) ++ []) /\
  forall u, u ∈ (revokedUrls st ++ (img_url <$> images st)) ++ [] -> u < url.
Proof.
  intros [Hnd Hb] Hle. rewrite app_nil_r. split; [exact Hnd|].
  intros u Hu. specialize (Hb u Hu). lia.
Qed.

Lemma urls_wf_handleOpenFolder picker sched st :
  urls_wf st -> urls_wf (handleOpenFolder picker sched st).
Proof.
  intros Hwf. unfold handleOpenFolder. destruct picker as [dirHandle|err].
  - cbv zeta. change (nextUrl (beginLoad st)) with (nextUrl st).
    destruct (scanDirectory dirHandle []) as [imageFiles|err].
    + pose proof (promiseAll_urls imageFiles sched (nextUrl st)) as (Hle & _ & _ & Hres).
      destruct (promiseAll imageFiles sched (nextUrl st)) as [p url]. simpl in Hle, Hres.
      destruct (pa_state p) as [loaded|err|].
      * destruct (Hres loaded eq_refl) as [Hn Hb]. destruct Hwf as [Hnd Hbound].
        unfold urls_wf, finallyBlock. simpl. rewrite !map_fmap, app_nil_r. split.
        -- apply NoDup_app. split; [exact Hnd|]. split; [|exact Hn].
           intros u Hu Hin. specialize (Hbound u Hu). specialize (Hb u Hin). lia.
        -- intros u Hu. apply elem_of_app in Hu as [Hu|Hu].
           ++ specialize (Hbound u Hu). lia.
           ++ specialize (Hb u Hu). lia.
      * unfold urls_wf, finallyBlock. simpl.
        rewrite images_catchBlock, revokedUrls_catchBlock.
        replace (nextUrl (catchBlock err (with_nextUrl url (beginLoad st)))) with url
          by (unfold catchBlock; case_decide; reflexivity).
        simpl. rewrite map_fmap. apply urls_wf_cleared; assumption.
      * unfold urls_wf. simpl. rewrite map_fmap. apply urls_wf_cleared; assumption.
    + unfold urls_wf, finallyBlock. simpl.
      rewrite images_catchBlock, revokedUrls_catchBlock.
      replace (nextUrl (catchBlock err (beginLoad st))) with (nextUrl st)
        by (unfold catchBlock; case_decide; reflexivity).
      simpl. rewrite map_fmap. apply urls_wf_cleared; [exact Hwf|lia].
  - unfold urls_wf, finallyBlock. simpl.
    rewrite images_catchBlock, revokedUrls_catchBlock.
    replace (nextUrl (catchBlock err st)) with (nextUrl st)
      by (unfold catchBlock; case_decide; reflexivity).
    exact Hwf.
Qed.

Lemma urls_wf_step ev st : urls_wf st -> urls_wf (step ev st).
Proof.
  intros Hwf. destruct ev as [k| | | |key|t|picker sched];
    try (apply (urls_wf_same st); [apply sameGallery_step; exact I|exact Hwf]).
  simpl. destruct (loading st); [exact Hwf|apply urls_wf_handleOpenFolder, Hwf].
Qed.

Lemma urls_wf_run evs : forall st, urls_wf st -> urls_wf (run evs st).
Proof.
  induction evs as [|ev evs IH]; intros st Hwf; [exact Hwf|].
  unfold run in *. simpl. apply IH, urls_wf_step, Hwf.
Qed.

(** X11: in every state the component can reach from its initial state,
    whatever the events, the order in which reads settle and the failures
    met, the URLs revoked so far and the URLs of the current asset list are
    pairwise distinct: no URL still shown in the grid has been revoked, no
    URL is revoked twice, and no two assets share a URL. *)
Theorem X11_shown_urls_are_live evs :
  let st := run evs initialApp in
  NoDup (revokedUrls st ++ (img_url <$> images st)) /\
  (forall img, img ∈ images st -> img_url img ∉ revokedUrls st) /\
  NoDup (revokedUrls st) /\
  NoDup (img_url <$> images st).
Proof.
  cbv zeta.
  assert (urls_wf initialApp) as Hinit.
  { split; [constructor|]. intros u Hu. inversion Hu. }
  destruct (urls_wf_run evs initialApp Hinit) as [Hnd _].
  split; [exact Hnd|].
  apply NoDup_app in Hnd as (Hr & Hdisj & Hi).
  split; [|split; assumption].
  intros img Himg Hrev. apply (Hdisj _ Hrev). apply list_elem_of_fmap. eauto.
Qed.

Lemma nextUrl_catchBlock err st : nextUrl (catchBlock err st) = nextUrl st.
Proof. unfold catchBlock. case_decide; reflexivity. Qed.

Lemma nextUrl_load dirHandle imageFiles sched st :
  scanDirectory dirHandle [] = Ok imageFiles ->
  nextUrl (handleOpenFolder (Ok dirHandle) sched st)
  = nextUrl st + createdCount imageFiles sched.
Proof.
  intros Hscan. rewrite (handleOpenFolder_scanned _ _ _ _ Hscan). cbv zeta.
  assert (snd (promiseAll imageFiles sched (nextUrl st))
          = nextUrl st + createdCount imageFiles sched) as Hsnd
    by (unfold promiseAll; rewrite settleAll_nextUrl; reflexivity).
  destruct (pa_state (fst (promiseAll imageFiles sched (nextUrl st))));
    unfold finallyBlock; simpl; rewrite ?nextUrl_catchBlock; exact Hsnd.
Qed.

Lemma complete_schedule_length (sched : list nat) n :
  NoDup sched -> (forall k, k ∈ sched <-> k < n) -> length sched = n.
Proof.
  intros Hnd Hall. apply Nat.le_antisymm.
  - apply nodup_range_length; [exact Hnd|]. intros k Hk. apply Hall, Hk.
  - rewrite <- (length_seq n 0) at 1. apply submseteq_length.
    apply NoDup_submseteq; [apply NoDup_seq|].
    intros k Hk. apply elem_of_seq in Hk. apply Hall. lia.
Qed.

Lemma createdCount_all_readable (items : list ImageFile) (sched : list nat) :
  (forall k, k ∈ sched -> k < length items) ->
  (forall item, item ∈ items -> readable item = true) ->
  createdCount items sched = length sched.
Proof.
  intros Hrange Hread. unfold createdCount. rewrite forallb_filter_id; [reflexivity|].
  apply forallb_forall. intros k Hk. apply list_elem_of_In in Hk.
  destruct (lookup_lt_is_Some_2 items k (Hrange k Hk)) as [item Hitem].
  unfold creates. rewrite Hitem. apply Hread. apply list_elem_of_lookup. eauto.
Qed.

(** X12: a load started from the grid (no image selected) in which the
    scan and every file read succeed leaves the names of the scanned entries
    in scan order, an empty zoom memory, the URLs of the previous list
    revoked and nothing else revoked, the busy flag cleared and still no
    image selected; it creates exactly one URL per entry and every URL it
    created is held by the new list. *)
Theorem X12_successful_load_state st dirHandle imageFiles sched :
  selectedIndex st = None ->
  scanDirectory dirHandle [] = Ok imageFiles ->
  NoDup sched ->
  (forall k, k ∈ sched <-> k < length imageFiles) ->
  (forall item, item ∈ imageFiles -> readable item = true) ->
  let st' := handleOpenFolder (Ok dirHandle) sched st in
  img_name <$> images st' = if_name <$> imageFiles /\
  zoomStates st' = ∅ /\
  revokedUrls st' = revokedUrls st ++ map img_url (images st) /\
  loading st' = false /\
  selectedIndex st' = None /\
  nextUrl st' = nextUrl st + length imageFiles /\
  img_url <$> images st' ≡ₚ seq (nextUrl st) (length imageFiles).
Proof.
  intros Hnone Hscan Hnd Hall Hread. cbv zeta.
  destruct (promiseAll_fulfilled imageFiles sched (nextUrl st) Hnd Hall Hread)
    as [loaded [Hst [Hlen Hord]]].
  destruct (successful_load_state dirHandle imageFiles sched st loaded Hscan Hst)
    as (Himg & Hzoom & Hrev & Hload & Hsel).
  rewrite Hnone in Hsel.
  assert (createdCount imageFiles sched = length imageFiles) as Hcount.
  { rewrite createdCount_all_readable; [|intros k Hk; apply Hall, Hk|exact Hread].
    apply complete_schedule_length; assumption. }
  rewrite Himg, (nextUrl_load _ _ _ _ Hscan), Hcount.
  split; [|split; [exact Hzoom|split; [exact Hrev|split; [exact Hload|split;
    [exact Hsel|split; [reflexivity|]]]]]].
  - apply list_eq. intros i. rewrite !list_lookup_fmap.
    destruct (imageFiles !! i) as [item|] eqn:Hi.
    + destruct (Hord i item Hi) as [img [-> [Hname _]]]. simpl. congruence.
    + rewrite lookup_ge_None_2; [reflexivity|].
      rewrite Hlen. apply lookup_ge_None. exact Hi.
  - pose proof (promiseAll_urls imageFiles sched (nextUrl st)) as (_ & _ & _ & Hres).
    destruct (Hres loaded Hst) as [Hn Hb].
    assert (snd (promiseAll imageFiles sched (nextUrl st))
            = nextUrl st + length imageFiles) as Hsnd
      by (unfold promiseAll; rewrite settleAll_nextUrl, Hcount; reflexivity).
    apply submseteq_length_Permutation.
    + apply NoDup_submseteq; [exact Hn|].
      intros u Hu. apply elem_of_seq. specialize (Hb u Hu). lia.
    + rewrite length_seq, length_fmap, Hlen. lia.
Qed.

Lemma X12_witness :
  selectedIndex browsing = None /\
  scanDirectory sampleTree [] = Ok sampleFound /\
  NoDup [3; 1; 0; 2] /\
  (forall k, k ∈ [3; 1; 0; 2] <-> k < length sampleFound) /\
  (forall item, item ∈ sampleFound -> readable item = true) /\
  let st' := handleOpenFolder (Ok sampleTree) [3; 1; 0; 2] browsing in
  img_name <$> images st' = if_name <$> sampleFound /\
  zoomStates st' = ∅ /\
  revokedUrls st' = revokedUrls browsing ++ map img_url (images browsing) /\
  loading st' = false /\
  selectedIndex st' = None /\
  nextUrl st' = nextUrl browsing + length sampleFound /\
  img_url <$> images st' ≡ₚ seq (nextUrl browsing) (length sampleFound).
Proof.
  assert (scanDirectory sampleTree [] = Ok sampleFound) as Hscan by (vm_compute; reflexivity).
  assert (NoDup [3; 1; 0; 2]) as Hnd by compute_done.
  assert (forall k, k ∈ [3; 1; 0; 2] <-> k < length sampleFound) as Hall.
  { intros k. simpl. split.
    - intros Hk. repeat (apply elem_of_cons in Hk as [->|Hk]; [lia|]). inversion Hk.
    - intros Hk. destruct k as [|[|[|[|k]]]]; [set_solver..|lia]. }
  assert (forall item, item ∈ sampleFound -> readable item = true) as Hread.
  { intros item Hitem. unfold sampleFound in Hitem.
    repeat (apply elem_of_cons in Hitem as [->|Hitem]; [reflexivity|]). inversion Hitem. }
  split; [reflexivity|].
  split; [exact Hscan|]. split; [exact Hnd|]. split; [exact Hall|]. split; [exact Hread|].
  exact (X12_successful_load_state browsing sampleTree sampleFound [3; 1; 0; 2]
           eq_refl Hscan Hnd Hall Hread).
Defined.

(** X13: when a file read fails, the URLs already created for the other
    files of the batch, and those created for reads that settle later, are
    lost: the load creates one URL per readable file that settles, holds
    none of them in the asset list and never revokes any of them. *)
Theorem X13_failed_load_leaks_created_urls st dirHandle imageFiles sched e :
  urls_wf st ->
  scanDirectory dirHandle [] = Ok imageFiles ->
  pa_state (fst (promiseAll imageFiles sched (nextUrl st))) = Rejected e ->
  let st' := handleOpenFolder (Ok dirHandle) sched st in
  nextUrl st' = nextUrl st + createdCount imageFiles sched /\
  images st' = [] /\
  forall u, nextUrl st <= u < nextUrl st' -> u ∉ revokedUrls st'.
Proof.
  intros [_ Hbound] Hscan Hrej. cbv zeta.
  split; [apply nextUrl_load, Hscan|].
  rewrite (handleOpenFolder_scanned _ _ _ _ Hscan). cbv zeta. rewrite Hrej.
  unfold finallyBlock. simpl. rewrite images_catchBlock, revokedUrls_catchBlock.
  simpl. split; [reflexivity|].
  intros u [Hu _] Hin. rewrite map_fmap in Hin. specialize (Hbound u Hin). lia.
Qed.

Lemma X13_witness :
  let e := {| err_name := "NotReadableError" |} in
  let found := [imageFileOf (FileHandle "a.png" (Ok 1));
                imageFileOf (FileHandle "b.png" (Throw e))] in
  let st' := handleOpenFolder (Ok unreadableDir) [1; 0] browsing in
  urls_wf browsing /\
  scanDirectory unreadableDir [] = Ok found /\
  pa_state (fst (promiseAll found [1; 0] (nextUrl browsing))) = Rejected e /\
  createdCount found [1; 0] = 1 /\
  nextUrl st' = nextUrl browsing + createdCount found [1; 0] /\
  images st' = [] /\
  forall u, nextUrl browsing <= u < nextUrl st' -> u ∉ revokedUrls st'.
Proof.
  intros e found st'.
  assert (urls_wf browsing) as Hwf.
  { split; [compute_done|]. intros u Hu. simpl in Hu.
    repeat (apply elem_of_cons in Hu as [->|Hu]; [simpl; lia|]). inversion Hu. }
  assert (scanDirectory unreadableDir [] = Ok found) as Hscan by reflexivity.
  assert (pa_state (fst (promiseAll found [1; 0] (nextUrl browsing))) = Rejected e) as Hrej
    by reflexivity.
  split; [exact Hwf|]. split; [exact Hscan|]. split; [exact Hrej|].
  split; [reflexivity|].
  exact (X13_failed_load_leaks_created_urls browsing unreadableDir found [1; 0] e
           Hwf Hscan Hrej).
Defined.

(** ** Loads started from the grid keep the viewer consistent *)

Lemma mounted_setSelectedIndex v st :
  (is_Some (transformRef st) <-> is_Some (selectedIndex st)) ->
  (is_Some (transformRef (setSelectedIndex v st))
   <-> is_Some (selectedIndex (setSelectedIndex v st))).
Proof.
  intros Hm. unfold setSelectedIndex. destruct (decide _); [exact Hm|].
  destruct v as [j|]; simpl.
  - split; intros _; eauto.
  - split; intros [? [=]].
Qed.

Lemma transformRef_saveCurrentState st :
  transformRef (saveCurrentState st) = transformRef st.
Proof.
  unfold saveCurrentState.
  destruct (transformRef st) as [t|] eqn:Et; destruct (selectedIndex st) as [i|] eqn:Es;
    simpl; congruence.
Qed.

Lemma mounted_saveCurrentState st :
  (is_Some (transformRef st) <-> is_Some (selectedIndex st)) ->
  (is_Some (transformRef (saveCurrentState st))
   <-> is_Some (selectedIndex (saveCurrentState st))).
Proof. rewrite transformRef_saveCurrentState, selectedIndex_saveCurrentState. auto. Qed.

Lemma mounted_step ev st :
  is_ui_event ev ->
  (is_Some (transformRef st) <-> is_Some (selectedIndex st)) ->
  (is_Some (transformRef (step ev st)) <-> is_Some (selectedIndex (step ev st))).
Proof.
  intros Hui Hm. destruct ev as [k| | | |key|t|picker sched]; simpl.
  - case_decide; [apply mounted_setSelectedIndex|]; exact Hm.
  - destruct (selectedIndex st) eqn:Hs; [|rewrite Hs; exact Hm].
    case_decide; [rewrite Hs; exact Hm|].
    apply mounted_setSelectedIndex, mounted_saveCurrentState. rewrite Hs. exact Hm.
  - destruct (selectedIndex st) eqn:Hs; [|rewrite Hs; exact Hm].
    case_decide; [rewrite Hs; exact Hm|].
    apply mounted_setSelectedIndex, mounted_saveCurrentState. rewrite Hs. exact Hm.
  - destruct (selectedIndex st) eqn:Hs; [|rewrite Hs; exact Hm].
    apply mounted_setSelectedIndex. rewrite Hs. exact Hm.
  - rewrite handleKeyDown_cases.
    destruct (selectedIndex st) eqn:Hs; [|rewrite Hs; exact Hm].
    repeat case_decide.
    + apply mounted_setSelectedIndex, mounted_saveCurrentState. rewrite Hs. exact Hm.
    + apply mounted_setSelectedIndex, mounted_saveCurrentState. rewrite Hs. exact Hm.
    + apply mounted_setSelectedIndex. rewrite Hs. exact Hm.
    + rewrite Hs. exact Hm.
  - destruct (transformRef st) eqn:Ht; simpl; [|rewrite Ht; exact Hm].
    rewrite <- Hm. split; intros _; eauto.
  - destruct Hui.
Qed.

Lemma view_ok_ui ev st : is_ui_event ev -> view_ok st -> view_ok (step ev st).
Proof.
  intros Hui (Hsel & Hzoom & Hm). split; [|split].
  - apply ui_step_preserves_range; assumption.
  - intros k Hk. rewrite (images_step_ui ev st Hui).
    destruct (decide (selectedIndex st = Some k)) as [Hk'|Hk'].
    + apply Hsel, Hk'.
    + rewrite (zoomStates_step_other ev st k Hui Hk') in Hk. apply Hzoom, Hk.
  - apply mounted_step; assumption.
Qed.

Lemma transformRef_load picker sched st :
  transformRef (handleOpenFolder picker sched st) = transformRef st.
Proof.
  unfold handleOpenFolder. destruct picker as [dirHandle|err].
  - cbv zeta. destruct (scanDirectory dirHandle []) as [imageFiles|err].
    + destruct (promiseAll imageFiles sched (nextUrl (beginLoad st))) as [p url].
      destruct (pa_state p); unfold finallyBlock, catchBlock; try case_decide; reflexivity.
    + unfold finallyBlock, catchBlock. case_decide; reflexivity.
  - unfold finallyBlock, catchBlock. case_decide; reflexivity.
Qed.

Lemma zoomStates_load picker sched st :
  zoomStates (handleOpenFolder picker sched st) = ∅ \/
  (zoomStates (handleOpenFolder picker sched st) = zoomStates st /\
   images (handleOpenFolder picker sched st) = images st).
Proof.
  unfold handleOpenFolder. destruct picker as [dirHandle|err].
  - left. cbv zeta. destruct (scanDirectory dirHandle []) as [imageFiles|err].
    + destruct (promiseAll imageFiles sched (nextUrl (beginLoad st))) as [p url].
      destruct (pa_state p); unfold finallyBlock, catchBlock; try case_decide; reflexivity.
    + unfold finallyBlock, catchBlock. case_decide; reflexivity.
  - right. unfold finallyBlock, catchBlock. case_decide; split; reflexivity.
Qed.

Lemma view_ok_load picker sched st :
  selectedIndex st = None -> view_ok st -> view_ok (handleOpenFolder picker sched st).
Proof.
  intros Hnone (Hsel & Hzoom & Hm). split; [|split].
  - apply load_preserves_range_when_closed, Hnone.
  - intros k Hk. destruct (zoomStates_load picker sched st) as [Hz|[Hz Hi]].
    + rewrite Hz, lookup_empty in Hk. destruct Hk as [? [=]].
    + rewrite Hz in Hk. rewrite Hi. apply Hzoom, Hk.
  - rewrite transformRef_load, load_keeps_selection. exact Hm.
Qed.

Lemma view_ok_run evs :
  forall st, view_ok st -> loadsFromGrid evs st -> view_ok (run evs st).
Proof.
  induction evs as [|ev evs IH]; intros st Hok Hsafe; [exact Hok|].
  destruct Hsafe as [Hev Hrest]. unfold run in *. simpl. apply IH; [|exact Hrest].
  destruct ev as [k| | | |key|t|picker sched];
    try (apply view_ok_ui; [exact I|exact Hok]).
  simpl. destruct (loading st); [exact Hok|apply view_ok_load; assumption].
Qed.

Lemma viewerSrc_in_range st : selection_in_range st -> exists src, viewerSrc st = Ok src.
Proof.
  intros Hsel. unfold viewerSrc. destruct (selectedIndex st) as [i|] eqn:Hi; [|eauto].
  specialize (Hsel i Hi). unfold imageAt.
  destruct (Z.leb_spec 0 i) as [_|Hneg]; [|lia].
  destruct (lookup_lt_is_Some_2 (images st) (Z.to_nat i)) as [img Himg]; [lia|].
  rewrite Himg. eauto.
Qed.

(** X14: as long as every folder load is started from the grid, with no
    image selected, every state reached from the initial state keeps the
    viewer consistent with the asset list: the selection is an index of the
    list, every index remembered in the zoom memory is an index of the list,
    the viewer is mounted exactly when an image is selected, and rendering
    the full view does not throw. *)
Theorem X14_loads_from_grid_keep_viewer_consistent evs :
  loadsFromGrid evs initialApp ->
  let st := run evs initialApp in
  selection_in_range st /\
  (forall k, is_Some (zoomStates st !! k) -> (0 <= k < Z.of_nat (length (images st)))%Z) /\
  (is_Some (transformRef st) <-> is_Some (selectedIndex st)) /\
  exists src, viewerSrc st = Ok src.
Proof.
  intros Hsafe. cbv zeta.
  assert (view_ok initialApp) as Hinit.
  { split; [intros i [=]|]. split.
    - intros k Hk. simpl in Hk. rewrite lookup_empty in Hk. destruct Hk as [? [=]].
    - simpl. split; intros [? [=]]. }
  destruct (view_ok_run evs initialApp Hinit Hsafe) as (Hsel & Hzoom & Hm).
  split; [exact Hsel|]. split; [exact Hzoom|]. split; [exact Hm|].
  apply viewerSrc_in_range, Hsel.
Qed.

Lemma X14_witness :
  loadsFromGrid sampleSession initialApp /\
  let st := run sampleSession initialApp in
  selection_in_range st /\
  (forall k, is_Some (zoomStates st !! k) -> (0 <= k < Z.of_nat (length (images st)))%Z) /\
  (is_Some (transformRef st) <-> is_Some (selectedIndex st)) /\
  exists src, viewerSrc st = Ok src.
Proof.
  assert (loadsFromGrid sampleSession initialApp) as Hsafe
    by (vm_compute; repeat split; reflexivity).
  split; [exact Hsafe|].
  exact (X14_loads_from_grid_keep_viewer_consistent sampleSession Hsafe).
Defined.

(** ** First view after a load, and the grid without a viewer *)

Lemma zoomStates_load_ok dirHandle sched st :
  zoomStates (handleOpenFolder (Ok dirHandle) sched st) = ∅.
Proof.
  unfold handleOpenFolder. cbv zeta.
  destruct (scanDirectory dirHandle []) as [imageFiles|err].
  - destruct (promiseAll imageFiles sched (nextUrl (beginLoad st))) as [p url].
    destruct (pa_state p); unfold finallyBlock, catchBlock; try case_decide; reflexivity.
  - unfold finallyBlock, catchBlock. case_decide; reflexivity.
Qed.

Lemma initialState_no_memory st :
  zoomStates st = ∅ -> initialState st = defaultTransform /\ centerOnInit st = true.
Proof.
  intros Hz. unfold initialState, centerOnInit. rewrite Hz.
  destruct (selectedIndex st); rewrite ?lookup_empty; auto.
Qed.

(** X15: zoom memory does not carry over to another folder.  After a load
    that was started from the grid and got past the prompt, the first card
    opened, whichever it is, starts from the default transform
    {scale: 1, positionX: 0, positionY: 0} with centring on, whatever the zoom
    memory held before the load. *)
Theorem X15_first_view_after_load_uses_defaults st dirHandle sched k :
  selectedIndex st = None ->
  k < length (images (handleOpenFolder (Ok dirHandle) sched st)) ->
  let st' := step (ClickCard k) (handleOpenFolder (Ok dirHandle) sched st) in
  selectedIndex st' = Some (Z.of_nat k) /\
  initialState st' = defaultTransform /\
  centerOnInit st' = true /\
  transformRef st' = Some defaultTransform.
Proof.
  intros Hnone Hk. cbv zeta.
  set (st1 := handleOpenFolder (Ok dirHandle) sched st) in *.
  unfold step. case_decide; [|contradiction].
  assert (selectedIndex st1 <> Some (Z.of_nat k)) as Hsel
    by (unfold st1; rewrite load_keeps_selection, Hnone; discriminate).
  assert (zoomStates (setSelectedIndex (Some (Z.of_nat k)) st1) = ∅) as Hzoom
    by (rewrite zoomStates_setSelectedIndex; apply zoomStates_load_ok).
  destruct (initialState_no_memory _ Hzoom) as [Hinit Hcenter].
  split; [apply selectedIndex_setSelectedIndex|]. split; [exact Hinit|].
  split; [exact Hcenter|].
  rewrite (setSelectedIndex_mount _ _ Hsel), Hinit. reflexivity.
Qed.

Lemma X15_witness :
  selectedIndex (with_zoomStates {[ 2%Z := zoomed ]} browsing) = None /\
  2 < length (images (handleOpenFolder (Ok sampleTree) [0; 1; 2; 3]
                        (with_zoomStates {[ 2%Z := zoomed ]} browsing))) /\
  let st' := step (ClickCard 2)
               (handleOpenFolder (Ok sampleTree) [0; 1; 2; 3]
                  (with_zoomStates {[ 2%Z := zoomed ]} browsing)) in
  selectedIndex st' = Some (Z.of_nat 2) /\
  initialState st' = defaultTransform /\
  centerOnInit st' = true /\
  transformRef st' = Some defaultTransform.
Proof.
  assert (2 < length (images (handleOpenFolder (Ok sampleTree) [0; 1; 2; 3]
                                (with_zoomStates {[ 2%Z := zoomed ]} browsing)))) as Hk
    by (vm_compute; lia).
  split; [reflexivity|]. split; [exact Hk|].
  exact (X15_first_view_after_load_uses_defaults
           (with_zoomStates {[ 2%Z := zoomed ]} browsing) sampleTree [0; 1; 2; 3] 2
           eq_refl Hk).
Defined.

(** X16: with the grid showing and no viewer mounted, the keyboard and the
    viewer controls are inert: any key, the prev, next and close buttons and
    any pan/zoom gesture leave the whole state exactly as it was; only a card
    click or a folder load can change it. *)
Theorem X16_grid_ignores_viewer_input ev st :
  selectedIndex st = None ->
  transformRef st = None ->
  (forall k, ev <> ClickCard k) ->
  is_ui_event ev ->
  step ev st = st.
Proof.
  intros Hsel Href Hcard Hui. destruct ev as [k| | | |key|t|picker sched]; simpl.
  - destruct (Hcard k eq_refl).
  - rewrite Hsel. reflexivity.
  - rewrite Hsel. reflexivity.
  - rewrite Hsel. reflexivity.
  - unfold handleKeyDown. rewrite Hsel. reflexivity.
  - rewrite Href. reflexivity.
  - destruct Hui.
Qed.

Lemma X16_witness :
  selectedIndex browsing = None /\
  transformRef browsing = None /\
  (forall k, KeyDown "ArrowRight" <> ClickCard k) /\
  is_ui_event (KeyDown "ArrowRight") /\
  step (KeyDown "ArrowRight") browsing = browsing.
Proof.
  assert (forall k, KeyDown "ArrowRight" <> ClickCard k) as Hcard by (intros k; discriminate).
  split; [reflexivity|]. split; [reflexivity|]. split; [exact Hcard|]. split; [exact I|].
  exact (X16_grid_ignores_viewer_input (KeyDown "ArrowRight") browsing
           eq_refl eq_refl Hcard I).
Defined.
